(** * AnkiJSApi: the security layer and the command router

    A shallow embedding of [src/ankidroid_js_api/security.py]
    ([InputValidator], [RateLimiter], [sanitize_for_logging]) and of the
    dispatch pipeline of [src/ankidroid_js_api/api_bridge.py]
    ([handle_pycmd], [_send_callback]), with the properties the
    specification states about them.

    Conventions of the embedding:
    - a Python [str] is the list of its code points ([pystr]);
    - a Python [int] is a [Z];
    - the [float]s of the rate limiter (seconds and tokens) are exact
      rationals ([Q]): every operation the limiter performs on them
      (sum, product, difference, [min], comparison) is the exact one;
    - a raised exception is a value of [PyExc]; code that can raise
      returns a [result];
    - the compiled regular expressions of the source are terms of [regex],
      run by a backtracking matcher that tries alternatives in the order
      Python's [re] does. *)

From Stdlib Require Import ZArith QArith String Ascii List Bool Lia Lqa.
From stdpp Require Import base option list gmap.

#[local] Set Warnings "-register-all".
Open Scope Z_scope.

(** ** Python strings *)

Module Py.

(** A [str] as the sequence of its code points. *)
Abbreviation pystr := (list Z).

(** [u "abc"] is the [str] literal of an ASCII text. *)
Definition u (s : string) : pystr :=
  List.map (fun a => Z.of_N (N_of_ascii a)) (list_ascii_of_string s).

(** [len(s)]. *)
Definition len (s : pystr) : Z := Z.of_nat (length s).

(** [str.isspace] on one character, which is also the class [\s] of a
    [str] pattern: CPython's [_PyUnicode_IsWhitespace]. *)
Definition isspace (c : Z) : bool :=
  ((9 <=? c) && (c <=? 13)) || ((28 <=? c) && (c <=? 32))
  || (c =? 133) || (c =? 160) || (c =? 5760)
  || ((8192 <=? c) && (c <=? 8202))
  || (c =? 8232) || (c =? 8233) || (c =? 8239) || (c =? 8287) || (c =? 12288).

(** [c in chars], for a character [c]. *)
Definition char_in (c : Z) (chars : pystr) : bool :=
  existsb (Z.eqb c) chars.

(** [s.lstrip()], [s.rstrip()] and [s.strip()] without argument. *)
Fixpoint lstrip (s : pystr) : pystr :=
  match s with
  | c :: s' => if isspace c then lstrip s' else s
  | [] => []
  end.

Definition rstrip (s : pystr) : pystr := rev (lstrip (rev s)).

Definition strip (s : pystr) : pystr := rstrip (lstrip s).

(** [s.startswith(prefix)]. *)
Fixpoint startswith (s prefix : pystr) {struct prefix} : bool :=
  match prefix, s with
  | [], _ => true
  | p :: prefix', c :: s' => (c =? p) && startswith s' prefix'
  | _ :: _, [] => false
  end.

(** [needle in s] for two strings. *)
Fixpoint contains (s needle : pystr) : bool :=
  startswith s needle ||
  match s with
  | [] => false
  | _ :: s' => contains s' needle
  end.

(** [s.split(sep, maxsplit)] for a one-character separator: at most
    [maxsplit] cuts, left to right; the last part keeps what is left. *)
Fixpoint split (sep : Z) (maxsplit : nat) (s : pystr) : list pystr :=
  match s with
  | [] => [[]]
  | c :: s' =>
      match maxsplit with
      | O => [s]
      | S m =>
          if c =? sep then [] :: split sep m s'
          else match split sep maxsplit s' with
               | part :: parts => (c :: part) :: parts
               | [] => [[c]]
               end
      end
  end.

(** [len(s.encode('utf-8'))]: the number of bytes of the UTF-8 form. *)
Definition utf8_size (c : Z) : Z :=
  if c <? 128 then 1 else if c <? 2048 then 2 else if c <? 65536 then 3 else 4.

Definition utf8_len (s : pystr) : Z :=
  fold_right (fun c n => utf8_size c + n) 0 s.

(** [s.encode('utf-8')] raises on a surrogate code point. *)
Definition utf8_encodable (s : pystr) : bool :=
  forallb (fun c => negb ((55296 <=? c) && (c <=? 57343))) s.

(** [str(n)] for an [int]. *)
Fixpoint digits_of_pos (fuel : nat) (n : Z) (acc : pystr) : pystr :=
  match fuel with
  | O => acc
  | S fuel' =>
      let acc' := (48 + n mod 10) :: acc in
      if n <? 10 then acc' else digits_of_pos fuel' (n / 10) acc'
  end.

Definition str_of_int (n : Z) : pystr :=
  if n <? 0 then 45 :: digits_of_pos (Z.to_nat (Z.log2 (- n)) + 1) (- n) []
  else digits_of_pos (Z.to_nat (Z.log2 n) + 1) n [].

(** [s.replace(old, new)]: the occurrences of [old], leftmost first and not
    overlapping, each replaced by [new]. [skip] counts the characters of the
    current occurrence still to pass over. An empty [old] occurs before
    every character and at the end. *)
Fixpoint replace_from (old new : pystr) (skip : nat) (s : pystr) : pystr :=
  match s with
  | [] => []
  | c :: s' =>
      match skip with
      | S k => replace_from old new k s'
      | O =>
          if startswith s old
          then new ++ replace_from old new (length old - 1) s'
          else c :: replace_from old new 0 s'
      end
  end.

Definition replace (s old new : pystr) : pystr :=
  match old with
  | [] => new ++ flat_map (fun c => c :: new) s
  | _ :: _ => replace_from old new 0 s
  end.

End Py.

Import Py.

(** ** Exceptions and results *)

(** An exception: the name of its class ([type(e).__name__]) and its
    message ([str(e)]). Only subclasses of [Exception] are modelled. *)
Record PyExc := mkExc { exc_type : string; exc_msg : pystr }.

Inductive result (A : Type) :=
| Ok (a : A)
| Raise (e : PyExc).
Arguments Ok {A} a.
Arguments Raise {A} e.

Definition TypeError (msg : pystr) : PyExc := mkExc "TypeError" msg.
Definition ValueError (msg : pystr) : PyExc := mkExc "ValueError" msg.

(** ** Regular expressions

    The fragment of Python's [re] that the source's patterns use. Repetition
    is applied to character classes only, as in every pattern of the source. *)

Module Re.

Inductive regex :=
| Empty                       (* the empty pattern *)
| Lit (c : Z)                 (* one literal character *)
| Class (p : Z -> bool)       (* a character class: [...], \d, \s, \w, . *)
| Opt (r : regex)             (* r? *)
| Star (p : Z -> bool)        (* [class]*, greedy *)
| Plus (p : Z -> bool)        (* [class]+, greedy *)
| Cat (r1 r2 : regex)         (* r1 r2 *)
| Group (r : regex)           (* ( r ), capturing *)
| Bol                         (* ^ without MULTILINE *)
| Eol.                        (* $ without MULTILINE *)

(** The literal text [s] as a pattern. *)
Fixpoint lits (s : pystr) : regex :=
  match s with
  | [] => Empty
  | c :: s' => Cat (Lit c) (lits s')
  end.

(** Where the matcher stands: index in the subject, what is left of it, and
    the groups captured so far. *)
Record cursor := mkCursor { pos : nat; rest : pystr; groups : list pystr }.

Section Exec.
Context {R : Type}.

(** Greedy repetition of a class: the longest run first, then shorter
    ones while the continuation [k] fails. *)
Fixpoint star (p : Z -> bool) (g : list pystr) (k : cursor -> option R)
    (n : nat) (s : pystr) : option R :=
  match s with
  | c :: s' =>
      if p c then
        match star p g k (S n) s' with
        | Some x => Some x
        | None => k (mkCursor n s g)
        end
      else k (mkCursor n s g)
  | [] => k (mkCursor n s g)
  end.

Fixpoint exec (r : regex) (c : cursor) (k : cursor -> option R) : option R :=
  match r with
  | Empty => k c
  | Lit a =>
      match rest c with
      | x :: s' => if x =? a then k (mkCursor (S (pos c)) s' (groups c)) else None
      | [] => None
      end
  | Class p =>
      match rest c with
      | x :: s' => if p x then k (mkCursor (S (pos c)) s' (groups c)) else None
      | [] => None
      end
  | Opt r1 =>
      match exec r1 c k with
      | Some x => Some x
      | None => k c
      end
  | Star p => star p (groups c) k (pos c) (rest c)
  | Plus p =>
      match rest c with
      | x :: s' => if p x then star p (groups c) k (S (pos c)) s' else None
      | [] => None
      end
  | Cat r1 r2 => exec r1 c (fun c' => exec r2 c' k)
  | Group r1 =>
      exec r1 c (fun c' =>
        k (mkCursor (pos c') (rest c')
             (groups c' ++ [firstn (pos c' - pos c) (rest c)])))
  | Bol => match pos c with O => k c | S _ => None end
  | Eol =>
      match rest c with
      | [] => k c
      | [x] => if x =? 10 then k c else None
      | _ :: _ :: _ => None
      end
  end.
End Exec.

(** [pattern.match(s)]: a match that starts at index 0; the result is the
    cursor at the end of the match. *)
Definition re_match (r : regex) (s : pystr) : option cursor :=
  exec r (mkCursor 0 s []) Some.

(** [pattern.sub(repl, s)]: the leftmost matches, not overlapping, each
    replaced by [repl] applied to its groups. [skip] counts the characters
    of the current match still to pass over. *)
Fixpoint sub_from (r : regex) (repl : list pystr -> pystr) (skip n : nat)
    (s : pystr) : pystr :=
  match s with
  | [] =>
      match skip with
      | O => match exec r (mkCursor n [] []) Some with
             | Some c' => repl (groups c')
             | None => []
             end
      | S _ => []
      end
  | x :: s' =>
      match skip with
      | S k => sub_from r repl k (S n) s'
      | O =>
          match exec r (mkCursor n s []) Some with
          | Some c' =>
              match (pos c' - n)%nat with
              | O => repl (groups c') ++ x :: sub_from r repl 0 (S n) s'
              | S k => repl (groups c') ++ sub_from r repl k (S n) s'
              end
          | None => x :: sub_from r repl 0 (S n) s'
          end
      end
  end.

Definition re_sub (r : regex) (repl : list pystr -> pystr) (s : pystr) : pystr :=
  sub_from r repl 0 0 s.

End Re.

Import Re.

(** ** InputValidator *)

Module InputValidator.

Section Unicode.
(** [str.isalnum] and [str.isdecimal] on one character: the tables of the
    Unicode database, which the interpreter provides. *)
Variable isalnum : Z -> bool.
Variable isdecimal : Z -> bool.

(** The class [\w] of a [str] pattern. *)
Definition is_word (c : Z) : bool := isalnum c || (c =? 95).

(** [_CALLBACK_ID_PATTERN = re.compile(r'^-?\d+$')]. *)
Definition _CALLBACK_ID_PATTERN : regex :=
  Cat Bol (Cat (Opt (Lit 45)) (Cat (Plus isdecimal) Eol)).

(** The characters of the default pattern's class,
    [[\w\s.,!?;:\-\'「」。、]]. *)
Definition text_class (c : Z) : bool :=
  is_word c || isspace c
  || char_in c (u ".,!?;:-'" ++ [12300; 12301; 12290; 12289]).

(** The default [pattern] of [validate_text],
    [r'^[\w\s.,!?;:\-\'「」。、]+$']. *)
Definition DEFAULT_TEXT_PATTERN : regex :=
  Cat Bol (Cat (Plus text_class) Eol).

Definition MAX_TEXT_LENGTH : Z := 500.

(** The two generator expressions that drop control characters. *)
Definition keep_char (allow_newlines : bool) (c : Z) : bool :=
  if allow_newlines then (32 <=? c) || char_in c [10; 9]
  else (32 <=? c) && negb (char_in c [10; 13]).

(** [InputValidator.validate_text] on a [str] argument (the [TypeError] of
    its first line needs an argument that is not a [str]). *)
Definition validate_text (text : pystr) (max_length : Z) (pattern : regex)
    (allow_newlines : bool) : result pystr :=
  if max_length <? len text then
    Raise (ValueError (u "Text too long: " ++ str_of_int (len text)
                         ++ u " > " ++ str_of_int max_length))
  else
    let text := List.filter (keep_char allow_newlines) text in
    match re_match pattern text with
    | None => Raise (ValueError (u "Text contains invalid characters"))
    | Some _ => Ok (strip text)
    end.

(** [validate_text(text)] with every default. *)
Definition validate_text_default (text : pystr) : result pystr :=
  validate_text text MAX_TEXT_LENGTH DEFAULT_TEXT_PATTERN true.

(** The class [[\w\-]] of the file name and tag patterns. *)
Definition word_or_hyphen (c : Z) : bool := is_word c || (c =? 45).

(** [_FILENAME_PATTERN = re.compile(r'^[\w\-]+\.\w+$')]. *)
Definition _FILENAME_PATTERN : regex :=
  Cat Bol (Cat (Plus word_or_hyphen) (Cat (Lit 46) (Cat (Plus is_word) Eol))).

(** [_TAG_PATTERN = re.compile(r'^[\w\-]+$')]. *)
Definition _TAG_PATTERN : regex := Cat Bol (Cat (Plus word_or_hyphen) Eol).

Definition MAX_TAG_LENGTH : Z := 100.

(** [InputValidator.validate_filename] on a [str] argument. *)
Definition validate_filename (filename : pystr) : result pystr :=
  match re_match _FILENAME_PATTERN filename with
  | None => Raise (ValueError (u "Invalid filename: " ++ filename))
  | Some _ =>
      if contains filename (u "..") || contains filename (u "/")
         || contains filename [92]
      then Raise (ValueError (u "Path traversal detected in filename: "
                                ++ filename))
      else Ok filename
  end.

(** [InputValidator.validate_tag] on a [str] argument. *)
Definition validate_tag (tag : pystr) (max_length : Z) : result pystr :=
  let tag := strip tag in
  if max_length <? len tag then
    Raise (ValueError (u "Tag too long: " ++ str_of_int (len tag)
                         ++ u " > " ++ str_of_int max_length))
  else
    match tag with
    | [] => Raise (ValueError (u "Tag cannot be empty"))
    | _ :: _ =>
        let tag := replace tag (u " ") (u "_") in
        match re_match _TAG_PATTERN tag with
        | None => Raise (ValueError (u "Invalid tag characters: " ++ tag))
        | Some _ => Ok tag
        end
    end.

(** A file name of the form [stem.ext], possibly followed by one newline:
    a stem of word characters and hyphens, a dot, an extension of word
    characters, neither of them empty. *)
Definition stem_dot_ext (filename : pystr) : Prop :=
  exists stem ext nl,
    filename = stem ++ 46 :: ext ++ nl
    /\ stem <> [] /\ ext <> []
    /\ forallb word_or_hyphen stem = true /\ forallb is_word ext = true
    /\ (nl = [] \/ nl = [10]).

End Unicode.

(** The ASCII part of the two Unicode tables: on ASCII text they are
    [str.isalnum] and [str.isdecimal]. *)
Definition ascii_isdecimal (c : Z) : bool := (48 <=? c) && (c <=? 57).
Definition ascii_isalnum (c : Z) : bool :=
  ascii_isdecimal c || ((65 <=? c) && (c <=? 90)) || ((97 <=? c) && (c <=? 122)).

End InputValidator.

(** ** RateLimiter *)

Module RateLimiter.

(** Comparisons and [min] on the numbers that stand for [float]s. Python's
    [min(a, b)] keeps [a] unless [b < a]. *)
Definition Qltb (a b : Q) : bool := negb (Qle_bool b a).
Definition py_min (a b : Q) : Q := if Qltb b a then b else a.

(** [RATE_LIMITER_CLEANUP_INTERVAL_SEC] and [RATE_LIMITER_STALE_THRESHOLD_SEC]. *)
Definition _CLEANUP_INTERVAL : Q := 300.
Definition _STALE_THRESHOLD : Q := 3600.

(** The class attributes: [_buckets] maps a key to [(tokens, last_refill)],
    [_call_counts] is a [defaultdict(int)]. *)
Record state := mkState {
  _buckets : gmap pystr (Q * Q);
  _call_counts : gmap pystr Z;
  _last_cleanup : Q
}.

(** [f"{identifier}:{operation}"]. *)
Definition key_of (identifier operation : pystr) : pystr :=
  identifier ++ 58 :: operation.

(** One iteration of the loop of [_cleanup_stale_entries]. *)
Definition drop_key (st : state) (key : pystr) : state :=
  mkState (delete key (_buckets st)) (delete key (_call_counts st))
          (_last_cleanup st).

Definition is_stale (now : Q) (entry : pystr * (Q * Q)) : bool :=
  Qltb _STALE_THRESHOLD (now - snd (snd entry)).

Definition stale_keys (now : Q) (st : state) : list pystr :=
  List.map fst (List.filter (is_stale now) (map_to_list (_buckets st))).

Definition _cleanup_stale_entries (now : Q) (st : state) : state :=
  fold_left drop_key (stale_keys now st) st.

(** The first statement of [check]: the sweep, when it is due. *)
Definition periodic_cleanup (now : Q) (st : state) : state :=
  if Qltb _CLEANUP_INTERVAL (now - _last_cleanup st) then
    let st' := _cleanup_stale_entries now st in
    mkState (_buckets st') (_call_counts st') now
  else st.

(** [RateLimiter.check], with the reading of [time.time()] as [now]. *)
Definition check (now : Q) (identifier operation : pystr) (max_per_second : Z)
    (st : state) : bool * state :=
  let st := periodic_cleanup now st in
  let key := key_of identifier operation in
  match _buckets st !! key with
  | None =>
      (true,
       mkState (<[key := (inject_Z max_per_second, now)]> (_buckets st))
               (<[key := 1]> (_call_counts st))
               (_last_cleanup st))
  | Some (tokens, last_refill) =>
      let elapsed := (now - last_refill)%Q in
      let tokens :=
        py_min (inject_Z max_per_second)
               (tokens + elapsed * inject_Z max_per_second)%Q in
      if Qle_bool 1 tokens then
        (true,
         mkState (<[key := ((tokens - 1)%Q, now)]> (_buckets st))
                 (<[key := default 0 (_call_counts st !! key) + 1]>
                    (_call_counts st))
                 (_last_cleanup st))
      else (false, st)
  end.

(** [RateLimiter.get_call_count]. *)
Definition get_call_count (identifier operation : pystr) (st : state) : Z :=
  default 0 (_call_counts st !! key_of identifier operation).

(** [RateLimiter.reset]: the buckets of one identifier, or everything when
    the identifier is [None] or empty. *)
Definition reset (identifier : option pystr) (st : state) : state :=
  match identifier with
  | Some (c :: i) =>
      fold_left drop_key
        (List.filter (fun k => startswith k (key_of (c :: i) []))
           (List.map fst (map_to_list (_buckets st))))
        st
  | _ => mkState ∅ ∅ (_last_cleanup st)
  end.

(** The state in which no key has been seen, [_last_cleanup] being the
    time at which the class was loaded. *)
Definition init (loaded : Q) : state := mkState ∅ ∅ loaded.

(** A sequence of calls, each with its own clock reading and arguments. *)
Record call := mkCall {
  call_now : Q; call_identifier : pystr; call_operation : pystr; call_max : Z
}.

Definition call_key (c : call) : pystr :=
  key_of (call_identifier c) (call_operation c).

Definition run_call (acc : list bool * state) (c : call) : list bool * state :=
  let (b, st') :=
    check (call_now c) (call_identifier c) (call_operation c) (call_max c)
          (snd acc) in
  (fst acc ++ [b], st').

(** The answers of the calls, in order, and the state they leave. *)
Definition run (calls : list call) (st : state) : list bool * state :=
  fold_left run_call calls ([], st).

(** The tokens of a key's bucket, if it has one. *)
Definition tokens_of (key : pystr) (st : state) : option Q :=
  fst <$> _buckets st !! key.

(** The tokens of [key], if it has a bucket, are at most [C]. *)
Definition capped (C : Z) (key : pystr) (st : state) : Prop :=
  forall t, tokens_of key st = Some t -> (t <= inject_Z C)%Q.

(** The calls of a sequence that concern [key] all pass the rate [C]. *)
Definition uniform_rate (C : Z) (key : pystr) (calls : list call) : bool :=
  forallb (fun c => implb (bool_decide (call_key c = key)) (call_max c =? C))
          calls.

(** No sweep is due at [now], and the bucket of [key] holds [r] tokens,
    refilled at [now]. *)
Definition holds_tokens (now : Q) (key : pystr) (r : Z) (st : state) : Prop :=
  Qltb _CLEANUP_INTERVAL (now - _last_cleanup st) = false
  /\ exists t, _buckets st !! key = Some (t, now) /\ (t == inject_Z r)%Q.

(** The state of the examples after four calls at the rate 3, all at the
    clock reading 5: the bucket is empty. *)
Definition after_four_calls : state :=
  snd (run (repeat (mkCall 5 (u "t") (u "f") 3) 4) (init 0)).

(** Whether the sweep is due at [now], and whether the bucket of [key] is
    one that the sweep at [now] removes. *)
Definition sweep_due (now : Q) (st : state) : bool :=
  Qltb _CLEANUP_INTERVAL (now - _last_cleanup st).

Definition stale_bucket (now : Q) (key : pystr) (st : state) : bool :=
  match _buckets st !! key with
  | Some (_, last_refill) => Qltb _STALE_THRESHOLD (now - last_refill)
  | None => false
  end.

(** The uses of the class: calls of [check] and of [reset], in any order. *)
Inductive action :=
| CallCheck (c : call)
| CallReset (identifier : option pystr).

Definition step (st : state) (a : action) : state :=
  match a with
  | CallCheck c =>
      snd (check (call_now c) (call_identifier c) (call_operation c)
                 (call_max c) st)
  | CallReset identifier => reset identifier st
  end.

Definition run_actions (acts : list action) (st : state) : state :=
  fold_left step acts st.

(** No call of the sequence passes a negative rate. *)
Definition rates_nonneg (acts : list action) : bool :=
  forallb (fun a => match a with
                    | CallCheck c => 0 <=? call_max c
                    | CallReset _ => true
                    end) acts.

(** The keys that have a counter are the keys that have a bucket, and a
    counter is at least 1. *)
Definition counters_follow_buckets (st : state) : Prop :=
  forall key,
    match _call_counts st !! key with
    | Some n => is_Some (_buckets st !! key) /\ 1 <= n
    | None => _buckets st !! key = None
    end.

End RateLimiter.

(** ** Log redaction *)

Module LogRedactor.

Definition dq : Z := 34.

(** The classes of the four patterns: every character but the double
    quote, every character but the closing bracket, [.] (no DOTALL),
    the two path separators, and every character but these two. In the
    comments below <dq> stands for the double quote character. *)
Definition not_dq (c : Z) : bool := negb (c =? dq).
Definition not_rbracket (c : Z) : bool := negb (c =? 93).
Definition dot (c : Z) : bool := negb (c =? 10).
Definition is_sep (c : Z) : bool := (c =? 92) || (c =? 47).
Definition not_sep (c : Z) : bool := negb (is_sep c).

(** [_SANITIZE_TEXT_RE]: <dq>text<dq>:\s*<dq>[^<dq>]*<dq> *)
Definition _SANITIZE_TEXT_RE : regex :=
  Cat (lits (dq :: u "text" ++ [dq; 58]))
      (Cat (Star isspace) (Cat (Lit dq) (Cat (Star not_dq) (Lit dq)))).

(** [_SANITIZE_QUERY_RE]: <dq>query<dq>:\s*<dq>[^<dq>]*<dq> *)
Definition _SANITIZE_QUERY_RE : regex :=
  Cat (lits (dq :: u "query" ++ [dq; 58]))
      (Cat (Star isspace) (Cat (Lit dq) (Cat (Star not_dq) (Lit dq)))).

(** [_SANITIZE_TAGS_RE]: <dq>tags<dq>:\s*\[[^\]]*\] *)
Definition _SANITIZE_TAGS_RE : regex :=
  Cat (lits (dq :: u "tags" ++ [dq; 58]))
      (Cat (Star isspace) (Cat (Lit 91) (Cat (Star not_rbracket) (Lit 93)))).

(** [_SANITIZE_PATH_RE]: File <dq>.*[\\/]([^\\/]+\.py)<dq> *)
Definition _SANITIZE_PATH_RE : regex :=
  Cat (lits (u "File " ++ [dq]))
      (Cat (Star dot)
         (Cat (Class is_sep)
            (Cat (Group (Cat (Plus not_sep) (lits (u ".py")))) (Lit dq)))).

(** The replacement texts: three constants, and File <dq>\1<dq>. *)
Definition REDACTED : pystr := u "[REDACTED]".
Definition text_repl : pystr := dq :: u "text" ++ [dq; 58; dq] ++ REDACTED ++ [dq].
Definition query_repl : pystr := dq :: u "query" ++ [dq; 58; dq] ++ REDACTED ++ [dq].
Definition tags_repl : pystr := dq :: u "tags" ++ [dq; 58; dq] ++ REDACTED ++ [dq].
Definition path_repl (groups : list pystr) : pystr :=
  u "File " ++ [dq] ++ nth 0 groups [] ++ [dq].

Definition MAX_LOG_MESSAGE_LENGTH : Z := 100.

(** The slice [data[:n]]; a negative [n] counts from the end. *)
Definition slice_to (n : Z) (data : pystr) : pystr :=
  if n <? 0 then firstn (length data - Z.to_nat (- n)) data
  else firstn (Z.to_nat n) data.

(** The four substitutions of [sanitize_for_logging], in its order. *)
Definition redact (data : pystr) : pystr :=
  let data := re_sub _SANITIZE_TEXT_RE (fun _ => text_repl) data in
  let data := re_sub _SANITIZE_QUERY_RE (fun _ => query_repl) data in
  let data := re_sub _SANITIZE_TAGS_RE (fun _ => tags_repl) data in
  re_sub _SANITIZE_PATH_RE path_repl data.

(** Its last line: the first [max_length] characters and three dots when
    [len(data) > max_length], otherwise [data]. *)
Definition truncate (max_length : Z) (data : pystr) : pystr :=
  if max_length <? len data then slice_to max_length data ++ u "..."
  else data.

(** [sanitize_for_logging] on a [str] argument. *)
Definition sanitize_for_logging (data : pystr) (max_length : Z) : pystr :=
  truncate max_length (redact data).

(** A text field, <dq>text<dq>: <dq>value<dq>: the quoted key, a colon,
    optional whitespace, and the quoted value. *)
Definition text_field (ws value : pystr) : pystr :=
  dq :: u "text" ++ [dq; 58] ++ ws ++ [dq] ++ value ++ [dq].

(** The shape the three field patterns share: a quoted key and a colon,
    whitespace, an opening character, a run without the closing character,
    the closing character. *)
Definition field_re (key : pystr) (opening closing : Z) : regex :=
  Cat (lits (dq :: key ++ [dq; 58]))
      (Cat (Star isspace)
         (Cat (Lit opening)
            (Cat (Star (fun c => negb (c =? closing))) (Lit closing)))).

(** The end of a quoted path: [.py] and a double quote. *)
Definition py_dq : pystr := u ".py" ++ [dq].

(** After each double quote of [t] there is no [.py] before a double
    quote: the path pattern matches nowhere in [t]. *)
Definition no_py_after_dq (t : pystr) : Prop :=
  forall a b, t = a ++ dq :: b -> contains b py_dq = false.

(** A text whose only double quote, if any, is its last character. *)
Definition dq_last_only (l : pystr) : Prop :=
  forall a b, l = a ++ dq :: b -> b = [].

(** The quoted path of a traceback line, File <dq>dir/name.py<dq>, with
    either separator. *)
Definition quoted_path (dir : pystr) (sep : Z) (name : pystr) : pystr :=
  u "File " ++ dq :: dir ++ sep :: name ++ py_dq.

End LogRedactor.

(** ** The command router *)

Module ApiBridge.

(** The Python values that cross the bridge: the JSON ones, and
    [PyObject t] for an object of any other class [t] (a set, bytes, an
    instance of a host class). Dictionaries have [str] keys and keep their
    insertion order. Floats are not modelled. *)
Inductive PyValue :=
| PyNone
| PyBool (b : bool)
| PyInt (n : Z)
| PyStr (s : pystr)
| PyList (items : list PyValue)
| PyDict (entries : list (pystr * PyValue))
| PyObject (type_name : pystr).

(** *** [json.dumps(value, ensure_ascii=True)] *)

Definition hex_digit (n : Z) : Z := if n <? 10 then 48 + n else 87 + n.

(** The escape \uXXXX of a 16-bit unit. *)
Definition u_escape (n : Z) : pystr :=
  92 :: 117 :: List.map hex_digit
    [Z.land (Z.shiftr n 12) 15; Z.land (Z.shiftr n 8) 15;
     Z.land (Z.shiftr n 4) 15; Z.land n 15].

(** One character of a string, as [py_encode_basestring_ascii] writes it. *)
Definition escape_char (c : Z) : pystr :=
  if c =? 34 then [92; 34]
  else if c =? 92 then [92; 92]
  else if c =? 10 then [92; 110]
  else if c =? 13 then [92; 114]
  else if c =? 9 then [92; 116]
  else if c =? 12 then [92; 102]
  else if c =? 8 then [92; 98]
  else if (32 <=? c) && (c <=? 126) then [c]
  else if c <? 65536 then u_escape c
  else
    let n := c - 65536 in
    u_escape (Z.lor 55296 (Z.land (Z.shiftr n 10) 1023))
      ++ u_escape (Z.lor 56320 (Z.land n 1023)).

Definition encode_str (s : pystr) : pystr :=
  34 :: List.concat (List.map escape_char s) ++ [34].

Definition bind_result {A B} (r : result A) (f : A -> result B) : result B :=
  match r with
  | Ok a => f a
  | Raise e => Raise e
  end.

(** The items of a list or of a dictionary, separated by a comma and a
    space; the first item that cannot be written raises. *)
Fixpoint join_dumps {A} (dump_item : A -> result pystr) (first : bool)
    (l : list A) : result pystr :=
  match l with
  | [] => Ok []
  | x :: l' =>
      bind_result (dump_item x) (fun sx =>
      bind_result (join_dumps dump_item false l') (fun sl =>
      Ok ((if first then [] else u ", ") ++ sx ++ sl)))
  end.

Fixpoint json_dumps (v : PyValue) : result pystr :=
  match v with
  | PyNone => Ok (u "null")
  | PyBool true => Ok (u "true")
  | PyBool false => Ok (u "false")
  | PyInt n => Ok (str_of_int n)
  | PyStr s => Ok (encode_str s)
  | PyList items =>
      bind_result (join_dumps json_dumps true items)
        (fun s => Ok (91 :: s ++ [93]))
  | PyDict entries =>
      bind_result
        (join_dumps
           (fun entry =>
              bind_result (json_dumps (snd entry)) (fun sx =>
              Ok (encode_str (fst entry) ++ u ": " ++ sx)))
           true entries)
        (fun s => Ok (123 :: s ++ [125]))
  | PyObject type_name =>
      Raise (TypeError (u "Object of type " ++ type_name
                          ++ u " is not JSON serializable"))
  end.

(** An induction principle that reaches the items of lists and
    dictionaries. *)
Section PyValueInd.
Variable P : PyValue -> Prop.
Hypothesis HNone : P PyNone.
Hypothesis HBool : forall b, P (PyBool b).
Hypothesis HInt : forall n, P (PyInt n).
Hypothesis HStr : forall s, P (PyStr s).
Hypothesis HList : forall items, Forall P items -> P (PyList items).
Hypothesis HDict :
  forall entries, Forall (fun e => P (snd e)) entries -> P (PyDict entries).
Hypothesis HObject : forall t, P (PyObject t).

Fixpoint PyValue_nested_ind (v : PyValue) : P v :=
  match v with
  | PyNone => HNone
  | PyBool b => HBool b
  | PyInt n => HInt n
  | PyStr s => HStr s
  | PyList items =>
      HList items
        ((fix go (l : list PyValue) : Forall P l :=
            match l with
            | [] => @List.Forall_nil _ P
            | x :: l' =>
                @List.Forall_cons _ P x l' (PyValue_nested_ind x) (go l')
            end) items)
  | PyDict entries =>
      HDict entries
        ((fix go (l : list (pystr * PyValue))
            : Forall (fun e => P (snd e)) l :=
            match l with
            | [] => @List.Forall_nil _ (fun e => P (snd e))
            | e :: l' =>
                @List.Forall_cons _ (fun e => P (snd e)) e l'
                  (PyValue_nested_ind (snd e)) (go l')
            end) entries)
  | PyObject t => HObject t
  end.
End PyValueInd.

(** *** The host and the registry *)

(** How a registered function is called: with the entries of a dictionary
    as keyword arguments, or with one positional argument. *)
Inductive CallArgs :=
| Kwargs (args : list (pystr * PyValue))
| Positional (arg : PyValue).

(** A registered function: it returns a value or raises. Its effects on
    the host are not modelled. *)
Definition PyCallable : Type := CallArgs -> result PyValue.

(** What [handle_pycmd] reads of the current card: the outcome of
    [str(card.template().get('qfmt', ''))], a text or the failure of that
    expression. *)
Record Card := mkCard { qfmt : result pystr }.

(** The reviewer: its current card, if any, and whether it has a web view. *)
Record Reviewer := mkReviewer { card : option Card; web : bool }.

(** What a command can change: the state of the rate limiter and the
    scripts handed to [reviewer.web.eval], oldest first. *)
Record World := mkWorld {
  limiter : RateLimiter.state;
  evals : list pystr
}.

(** Computations that read and change the world and may raise; a raised
    exception keeps the changes made so far. *)
Definition M (A : Type) : Type := World -> result A * World.

Definition ret {A} (a : A) : M A := fun w => (Ok a, w).
Definition raise {A} (e : PyExc) : M A := fun w => (Raise e, w).
Definition bind {A B} (m : M A) (f : A -> M B) : M B :=
  fun w =>
    match m w with
    | (Ok a, w') => f a w'
    | (Raise e, w') => (Raise e, w')
    end.
Definition lift {A} (r : result A) : M A := fun w => (r, w).

(** [try: body except Exception as e: handler(e)]. *)
Definition try_except {A} (body : M A) (handler : PyExc -> M A) : M A :=
  fun w =>
    match body w with
    | (Ok a, w') => (Ok a, w')
    | (Raise e, w') => handler e w'
    end.

Notation "'do' x <- m ; k" := (bind m (fun x => k))
  (at level 10, x name, m at level 100, k at level 200).

(** [reviewer.web.eval(js_code)]. *)
Definition web_eval (js_code : pystr) : M unit :=
  fun w => (Ok tt, mkWorld (limiter w) (evals w ++ [js_code])).

(** [RateLimiter.check] on the limiter of the world. *)
Definition rate_check (now : Q) (identifier operation : pystr)
    (max_per_second : Z) : M bool :=
  fun w =>
    let (allowed, st) :=
      RateLimiter.check now identifier operation max_per_second (limiter w) in
    (Ok allowed, mkWorld st (evals w)).

Definition MAX_JSON_PAYLOAD_BYTES : Z := 10 * 1024.
Definition DEFAULT_API_RATE_LIMIT_PER_SECOND : Z := 10.

(** The two shapes of a response. *)
Definition error_response (msg : pystr) : PyValue :=
  PyDict [(u "success", PyBool false); (u "error", PyStr msg)].
Definition success_response (value : PyValue) : PyValue :=
  PyDict [(u "success", PyBool true); (u "result", value)].

(** The script that delivers a response. *)
Definition js_callback (callback_id response_json : pystr) : pystr :=
  u "window._ankidroidJsCallback(" ++ callback_id ++ u ", "
    ++ response_json ++ u ");".

(** [func( **args ) if isinstance(args, dict) else func(args)]. *)
Definition call_with (func : PyCallable) (args : PyValue) : result PyValue :=
  match args with
  | PyDict d => func (Kwargs d)
  | _ => func (Positional args)
  end.

Section Host.
(** What the interpreter and its libraries provide: [str.isdecimal] on one
    character, [json.loads], and the hexadecimal SHA-256 digest of the
    UTF-8 form of a text. *)
Variable isdecimal : Z -> bool.
Variable json_loads : pystr -> result PyValue.
Variable sha256_hexdigest : pystr -> pystr.

(** [API_REGISTRY]. *)
Variable API_REGISTRY : gmap pystr PyCallable.

(** [security.generate_template_hash]: the encoding raises on a text that
    has no UTF-8 form. *)
Definition generate_template_hash (template_content : pystr) : result pystr :=
  if utf8_encodable template_content then Ok (sha256_hexdigest template_content)
  else Raise (mkExc "UnicodeEncodeError" (u "surrogates not allowed")).

(** [_send_callback]; the debug log is not modelled. *)
Definition _send_callback (reviewer : option Reviewer) (callback_id : pystr)
    (response : PyValue) : M unit :=
  match re_match (InputValidator._CALLBACK_ID_PATTERN isdecimal) callback_id with
  | None => ret tt
  | Some _ =>
      do response_json <- lift (json_dumps response);
      let js_code := js_callback callback_id response_json in
      match reviewer with
      | Some r => if web r then web_eval js_code else ret tt
      | None => ret tt
      end
  end.

(** The identifier under which the calls of a template are counted:
    [unknown] unless the reviewer shows a card whose template can be read
    and hashed. *)
Definition template_id_of (reviewer : option Reviewer) : pystr :=
  match reviewer with
  | Some r =>
      match card r with
      | Some c =>
          match bind_result (qfmt c) generate_template_hash with
          | Ok digest => firstn 16 digest
          | Raise _ => u "unknown"
          end
      | None => u "unknown"
      end
  | None => u "unknown"
  end.

(** [json.loads(args_json) if args_json else {}]. *)
Definition parse_args (args_json : pystr) : result PyValue :=
  match args_json with
  | [] => Ok (PyDict [])
  | _ :: _ => json_loads args_json
  end.

(** [handle_pycmd], with the reading of [time.time()] as [now]; the debug
    log is not modelled. *)
Definition handle_pycmd (now : Q) (reviewer : option Reviewer) (cmd : pystr)
    : M unit :=
  if negb (startswith cmd (u "ankidroidjs:")) then ret tt
  else
    let parts := split 58 3 cmd in
    if (length parts <? 3)%nat then ret tt
    else
      let callback_id := nth 1 parts [] in
      let function_name := nth 2 parts [] in
      let args_json :=
        if (3 <? length parts)%nat then nth 3 parts [] else u "{}" in
      let template_id := template_id_of reviewer in
      do allowed <- rate_check now template_id function_name
                      DEFAULT_API_RATE_LIMIT_PER_SECOND;
      if negb allowed then
        _send_callback reviewer callback_id
          (error_response (u "Rate limit exceeded"))
      else
        match API_REGISTRY !! function_name with
        | None =>
            _send_callback reviewer callback_id
              (error_response (u "Unknown API function: " ++ function_name))
        | Some func =>
            try_except
              (do _ <- (if MAX_JSON_PAYLOAD_BYTES <? len args_json then
                          raise (ValueError (u "JSON payload too large: "
                                               ++ str_of_int (len args_json)
                                               ++ u " bytes"))
                        else ret tt);
               do args <- lift (parse_args args_json);
               do result <- lift (call_with func args);
               _send_callback reviewer callback_id (success_response result))
              (fun e =>
                 _send_callback reviewer callback_id
                   (error_response (u "Operation failed: " ++ u (exc_type e))))
        end.

(** The parts of [handle_pycmd], named for the proofs: the body of its
    [try] statement, and what it does once the command is split. *)
Definition try_body (reviewer : option Reviewer) (callback_id : pystr)
    (func : PyCallable) (args_json : pystr) : M unit :=
  do _ <- (if MAX_JSON_PAYLOAD_BYTES <? len args_json then
             raise (ValueError (u "JSON payload too large: "
                                  ++ str_of_int (len args_json) ++ u " bytes"))
           else ret tt);
  do args <- lift (parse_args args_json);
  do result <- lift (call_with func args);
  _send_callback reviewer callback_id (success_response result).

Definition dispatch (now : Q) (reviewer : option Reviewer)
    (callback_id function_name args_json : pystr) : M unit :=
  do allowed <- rate_check now (template_id_of reviewer) function_name
                  DEFAULT_API_RATE_LIMIT_PER_SECOND;
  if negb allowed then
    _send_callback reviewer callback_id
      (error_response (u "Rate limit exceeded"))
  else
    match API_REGISTRY !! function_name with
    | None =>
        _send_callback reviewer callback_id
          (error_response (u "Unknown API function: " ++ function_name))
    | Some func =>
        try_except (try_body reviewer callback_id func args_json)
          (fun e =>
             _send_callback reviewer callback_id
               (error_response (u "Operation failed: " ++ u (exc_type e))))
    end.

(** The scripts that sending a response with the JSON text [json] hands to
    the web view: one, or none when the callback id is refused or there is
    no web view. *)
Definition delivery (reviewer : option Reviewer) (callback_id json : pystr)
    : list pystr :=
  match re_match (InputValidator._CALLBACK_ID_PATTERN isdecimal) callback_id with
  | None => []
  | Some _ =>
      match reviewer with
      | Some r => if web r then [js_callback callback_id json] else []
      | None => []
      end
  end.

(** A sequence of commands, each with its clock reading, handled one
    after the other; an exception would end the sequence. *)
Fixpoint handle_each (reviewer : option Reviewer) (cmds : list (Q * pystr))
    : M unit :=
  match cmds with
  | [] => ret tt
  | (now, cmd) :: cmds' =>
      do _ <- handle_pycmd now reviewer cmd;
      handle_each reviewer cmds'
  end.

End Host.

(** The JSON text of an error response. *)
Definition error_json (msg : pystr) : pystr :=
  123 :: encode_str (u "success") ++ u ": false, "
    ++ encode_str (u "error") ++ u ": " ++ encode_str msg ++ [125].

(** *** The host of the closed examples *)

(** A [json.loads] that reads the empty object and rejects everything
    else, as [json.loads] rejects what is not JSON. *)
Definition loads_empty_object (s : pystr) : result PyValue :=
  if bool_decide (s = u "{}") then Ok (PyDict [])
  else Raise (mkExc "JSONDecodeError" (u "Expecting value")).

(** The reviewer of the examples shows no card, so that no digest is ever
    computed. *)
Definition no_card_digest (s : pystr) : pystr := [].
Definition web_reviewer : option Reviewer := Some (mkReviewer None true).
Definition fresh_world : World := mkWorld (RateLimiter.init 0) [].

(** Two kinds of registered functions. *)
Definition fails_with (kind : string) (msg : pystr) : PyCallable :=
  fun _ => Raise (mkExc kind msg).
Definition returns (v : PyValue) : PyCallable := fun _ => Ok v.

(** The state of the limiter after the first call for a function. *)
Definition after_first_call (function_name : pystr) : RateLimiter.state :=
  snd (RateLimiter.check 0 (u "unknown") function_name 10 (RateLimiter.init 0)).

(** The state of the limiter after eleven calls for a function at the
    clock reading 0: the bucket is empty. *)
Definition after_eleven_calls (function_name : pystr) : RateLimiter.state :=
  snd (RateLimiter.run
         (repeat (RateLimiter.mkCall 0 (u "unknown") function_name 10) 11)
         (RateLimiter.init 0)).

Definition handle_closed (registry : gmap pystr PyCallable) : Q ->
    option Reviewer -> pystr -> M unit :=
  handle_pycmd InputValidator.ascii_isdecimal loads_empty_object
    no_card_digest registry.

(** [register_api_function]. *)
Definition register_api_function (name : pystr) (func : PyCallable)
    (registry : gmap pystr PyCallable) : gmap pystr PyCallable :=
  <[name := func]> registry.

(** The JSON text of a success response whose result has the JSON text
    [result_json]. *)
Definition success_json (result_json : pystr) : pystr :=
  123 :: encode_str (u "success") ++ u ": true, "
    ++ encode_str (u "result") ++ u ": " ++ result_json ++ [125].

(** The characters that [json.dumps] writes with [ensure_ascii=True]. *)
Definition ascii_printable (c : Z) : bool := (32 <=? c) && (c <=? 126).

(** [inject_js_api]; [js_file] is the outcome of
    [read_js_file("ankidroid-api.js")], the text of the file or the
    exception it raises. The log is not modelled. *)
Definition inject_js_api (js_file : result pystr) (html : pystr)
    : result pystr :=
  bind_result js_file (fun js_api =>
    let injection := u "<script>" ++ js_api ++ u "</script>" in
    if contains html (u "</head>")
    then Ok (replace html (u "</head>") (injection ++ u "</head>"))
    else Ok (injection ++ html)).

End ApiBridge.

(** ** Validation of integers, and the functions that use the validators *)

Module Actions.
Import ApiBridge.

Section Interpreter.
(** What the interpreter provides: [int(s)] for a [str], [None] when it
    raises [ValueError]; and [str(value).lower()]. *)
Variable int_of_str : pystr -> option Z.
Variable str_lower : PyValue -> pystr.

(** [type(value).__name__]. *)
Definition type_name (value : PyValue) : pystr :=
  match value with
  | PyNone => u "NoneType"
  | PyBool _ => u "bool"
  | PyInt _ => u "int"
  | PyStr _ => u "str"
  | PyList _ => u "list"
  | PyDict _ => u "dict"
  | PyObject t => t
  end.

(** [int(value)], [None] when it raises [TypeError] or [ValueError]. An
    object of another class is taken to have no conversion to [int]. *)
Definition py_int (value : PyValue) : option Z :=
  match value with
  | PyBool b => Some (if b then 1 else 0)
  | PyInt n => Some n
  | PyStr s => int_of_str s
  | PyNone | PyList _ | PyDict _ | PyObject _ => None
  end.

(** [InputValidator.validate_integer]. *)
Definition validate_integer (value : PyValue) (min_val max_val : Z) : result Z :=
  match py_int value with
  | None => Raise (TypeError (u "Expected integer, got " ++ type_name value))
  | Some n =>
      if (min_val <=? n) && (n <=? max_val) then Ok n
      else Raise (ValueError (u "Value " ++ str_of_int n ++ u " out of range ["
                                ++ str_of_int min_val ++ u ", "
                                ++ str_of_int max_val ++ u "]"))
  end.

(** What the card actions below read and write of the host: the [flags]
    and [due] attributes of the current card, if there is one, and
    [col.sched.today], if there is a collection. *)
Record CardFields := mkCardFields { flags : Z; due : Z }.
Record Host := mkHost { current_card : option CardFields; today : option Z }.

Definition MIN_CARD_DUE_DAYS : Z := -365.
Definition MAX_CARD_DUE_DAYS : Z := 3650.

Definition FLAG_COLOR_MAP : gmap pystr Z :=
  list_to_map [(u "none", 0); (u "red", 1); (u "orange", 2); (u "green", 3);
               (u "blue", 4); (u "pink", 5); (u "turquoise", 6);
               (u "purple", 7)].

(** [card_actions.anki_set_card_due]: the value returned and the host
    after the call. The log is not modelled. *)
Definition anki_set_card_due (days : PyValue) (h : Host) : result (bool * Host) :=
  bind_result (validate_integer days MIN_CARD_DUE_DAYS MAX_CARD_DUE_DAYS)
    (fun days =>
       match current_card h, today h with
       | Some c, Some t =>
           Ok (true, mkHost (Some (mkCardFields (flags c) (t + days))) (today h))
       | _, _ => Ok (false, h)
       end).

(** [card_actions.anki_toggle_flag]; the log is not modelled. *)
Definition anki_toggle_flag (flag_color : PyValue) (h : Host)
    : result (bool * Host) :=
  match current_card h with
  | None => Ok (false, h)
  | Some c =>
      bind_result
        (match flag_color with
         | PyInt _ | PyBool _ => validate_integer flag_color 0 7
         | _ => Ok (default 0 (FLAG_COLOR_MAP !! str_lower flag_color))
         end)
        (fun flag_value =>
           Ok (true, mkHost (Some (mkCardFields flag_value (due c))) (today h)))
  end.

End Interpreter.

(** The loop of [tag_manager.anki_set_note_tags] on a list of [str]. *)
Definition process_tags (tags : list pystr) : list pystr :=
  fold_left
    (fun processed_tags tag =>
       let tag := strip tag in
       let tag := replace tag (u " ") (u "_") in
       match tag with
       | [] => processed_tags
       | _ :: _ => processed_tags ++ [tag]
       end)
    tags [].

(** [tag_manager.anki_set_note_tags]: [note_tags] are the tags of the note
    of the current card, if there is one; the value returned and the tags
    after the call. *)
Definition anki_set_note_tags (tags : list pystr)
    (note_tags : option (list pystr)) : bool * option (list pystr) :=
  match note_tags with
  | None => (false, None)
  | Some _ => (true, Some (process_tags tags))
  end.

End Actions.

(** * Proofs *)

(** * Properties of the string functions *)

Section Strings.
Implicit Types s t : pystr.

Lemma lstrip_length s : (length (lstrip s) <= length s)%nat.
Proof. induction s as [|c s IH]; simpl; [lia|]. destruct (isspace c); simpl; lia. Qed.

Lemma lstrip_forallb (P : Z -> bool) s :
  forallb P s = true -> forallb P (lstrip s) = true.
Proof.
  induction s as [|c s IH]; simpl; [done|].
  intros [Hc Hs]%andb_true_iff. destruct (isspace c); [auto|].
  simpl. by rewrite Hc, Hs.
Qed.

Lemma lstrip_idem s : lstrip (lstrip s) = lstrip s.
Proof.
  induction s as [|c s IH]; simpl; [done|].
  destruct (isspace c) eqn:E; [done|]. simpl. by rewrite E.
Qed.

Lemma lstrip_snoc s c : isspace c = false -> lstrip (s ++ [c]) = lstrip s ++ [c].
Proof.
  intros Hc. induction s as [|x s IH]; simpl; [by rewrite Hc|].
  destruct (isspace x); done.
Qed.

Lemma rstrip_length s : (length (rstrip s) <= length s)%nat.
Proof.
  unfold rstrip. rewrite length_rev.
  etransitivity; [apply lstrip_length|]. by rewrite length_rev.
Qed.

Lemma forallb_rev (P : Z -> bool) s : forallb P (rev s) = forallb P s.
Proof.
  induction s as [|c s IH]; simpl; [done|].
  rewrite forallb_app, IH. simpl. rewrite andb_true_r. apply andb_comm.
Qed.

Lemma rstrip_forallb (P : Z -> bool) s :
  forallb P s = true -> forallb P (rstrip s) = true.
Proof.
  intros H. unfold rstrip. rewrite forallb_rev.
  apply lstrip_forallb. by rewrite forallb_rev.
Qed.

Lemma rstrip_idem s : rstrip (rstrip s) = rstrip s.
Proof. unfold rstrip. by rewrite rev_involutive, lstrip_idem. Qed.

Lemma rstrip_cons c s : isspace c = false -> rstrip (c :: s) = c :: rstrip s.
Proof.
  intros Hc. unfold rstrip. simpl. rewrite lstrip_snoc by done.
  by rewrite rev_app_distr.
Qed.

(** A string that does not start with whitespace still does not after
    [rstrip]. *)
Lemma lstrip_rstrip_lstrip s : lstrip (rstrip (lstrip s)) = rstrip (lstrip s).
Proof.
  induction s as [|c s IH]; [done|]. simpl.
  destruct (isspace c) eqn:E; [done|].
  rewrite rstrip_cons by done. simpl. by rewrite E.
Qed.

Lemma strip_idem s : strip (strip s) = strip s.
Proof. unfold strip. by rewrite lstrip_rstrip_lstrip, rstrip_idem. Qed.

Lemma strip_length s : (length (strip s) <= length s)%nat.
Proof.
  unfold strip. etransitivity; [apply rstrip_length|apply lstrip_length].
Qed.

Lemma strip_forallb (P : Z -> bool) s :
  forallb P s = true -> forallb P (strip s) = true.
Proof. intros H. by apply rstrip_forallb, lstrip_forallb. Qed.

Lemma filter_forallb (P : Z -> bool) s : forallb P (List.filter P s) = true.
Proof.
  induction s as [|c s IH]; simpl; [done|].
  destruct (P c) eqn:E; simpl; [by rewrite E|done].
Qed.

Lemma filter_id (P : Z -> bool) s : forallb P s = true -> List.filter P s = s.
Proof.
  induction s as [|c s IH]; simpl; [done|].
  intros [Hc Hs]%andb_true_iff. by rewrite Hc, IH.
Qed.

Lemma filter_length_le (P : Z -> bool) s : (length (List.filter P s) <= length s)%nat.
Proof. induction s as [|c s IH]; simpl; [lia|]. destruct (P c); simpl; lia. Qed.

End Strings.

(** * Properties of the matcher *)

Section Matcher.

(** The pattern [^[class]+$]: when every character is in the class, the
    greedy run takes the whole subject. *)
Lemma star_eol_all (p : Z -> bool) g n s :
  forallb p s = true ->
  star p g (fun c => exec Eol c Some) n s
  = Some (mkCursor (n + length s) [] g).
Proof.
  revert n. induction s as [|c s IH]; intros n H; simpl.
  - by rewrite Nat.add_0_r.
  - simpl in H. apply andb_true_iff in H as [Hc Hs]. rewrite Hc.
    rewrite IH by done. do 2 f_equal. lia.
Qed.

(** Conversely the run stops only at the end of the subject or before a
    final newline, and a class with the newline then holds of it all. *)
Lemma star_eol_some (p : Z -> bool) g n s :
  p 10 = true ->
  is_Some (star p g (fun c => exec Eol c Some) n s) ->
  forallb p s = true.
Proof.
  intros Hnl. revert n. induction s as [|x s IH]; intros n H; simpl in *; [done|].
  assert (is_Some (exec Eol (mkCursor n (x :: s) g) Some) -> p x && forallb p s = true)
    as Hstop.
  { simpl. destruct s; [|by intros [? ?]].
    destruct (Z.eqb_spec x 10) as [->|]; [|by intros [? ?]].
    intros _. simpl. by rewrite Hnl. }
  destruct (p x) eqn:Hx; [|by apply Hstop].
  destruct (star p g _ (S n) s) eqn:Hs; [|by apply Hstop].
  simpl. apply (IH (S n)). rewrite Hs. done.
Qed.

Lemma class_plus_match (p : Z -> bool) s :
  p 10 = true ->
  is_Some (re_match (Cat Bol (Cat (Plus p) Eol)) s)
  <-> s <> [] /\ forallb p s = true.
Proof.
  intros Hnl. unfold re_match. simpl. split.
  - intros [c H]. destruct s as [|x s]; [done|]. split; [done|].
    destruct (p x) eqn:Hx; [|done]. simpl. rewrite Hx.
    apply (star_eol_some p [] 1%nat s Hnl). by exists c.
  - intros [Hne H]. destruct s as [|x s]; [done|].
    simpl in H. apply andb_true_iff in H as [Hx Hs]. rewrite Hx.
    rewrite star_eol_all by done. done.
Qed.

End Matcher.

(** * InputValidator *)

Section TextValidation.
Import InputValidator.
Variable isalnum : Z -> bool.

Lemma text_class_newline : text_class isalnum 10 = true.
Proof. unfold text_class. by rewrite orb_true_r. Qed.

Lemma keep_char_space c : isspace c = true -> 32 <= c -> keep_char true c = true.
Proof. intros _ H. unfold keep_char. apply orb_true_iff. left. lia. Qed.

(** What [validate_text] computes with its defaults. *)
Lemma validate_text_default_ok text r :
  validate_text_default isalnum text = Ok r <->
  len text <= MAX_TEXT_LENGTH
  /\ List.filter (keep_char true) text <> []
  /\ forallb (text_class isalnum) (List.filter (keep_char true) text) = true
  /\ r = strip (List.filter (keep_char true) text).
Proof.
  unfold validate_text_default, validate_text.
  pose proof (class_plus_match (text_class isalnum)
                (List.filter (keep_char true) text) text_class_newline) as Hm.
  fold (DEFAULT_TEXT_PATTERN isalnum) in Hm.
  destruct (Z.ltb_spec MAX_TEXT_LENGTH (len text)).
  - split; [done|]. lia.
  - destruct (re_match _ _) eqn:E.
    + destruct Hm as [Hm _]. destruct Hm as [Hne Hall]; [done|].
      split; [intros [= <-]; done|]. by intros (_ & _ & _ & ->).
    + split; [done|]. intros (_ & Hne & Hall & _).
      destruct Hm as [_ Hm]. destruct Hm; done.
Qed.

(** C2, as amended: [validate_text] is idempotent on the inputs it accepts
    with a non-empty result. With the default [max_length], [pattern] and
    [allow_newlines], if [validate_text(s)] returns a non-empty [r] then
    [validate_text(r)] returns [r]. *)
Theorem validate_text_idempotent_nonempty (s r : pystr) :
  validate_text_default isalnum s = Ok r ->
  r <> [] ->
  validate_text_default isalnum r = Ok r.
Proof.
  intros (Hlen & _ & Hall & ->)%validate_text_default_ok Hne.
  set (f := List.filter (keep_char true) s) in *.
  assert (List.filter (keep_char true) (strip f) = strip f) as Hf.
  { apply filter_id, strip_forallb, filter_forallb. }
  apply validate_text_default_ok. rewrite Hf. repeat split.
  - pose proof (strip_length f). pose proof (filter_length_le (keep_char true) s).
    unfold len in *. fold f in H0. lia.
  - done.
  - by apply strip_forallb.
  - by rewrite strip_idem.
Qed.

(** C9: [validate_text] does not guarantee a non-empty result. Some
    non-empty string of whitespace only (three spaces) is accepted with the
    default arguments, and the value returned is the empty string. *)
Theorem validate_text_may_return_empty :
  exists s : pystr,
    s <> [] /\ forallb isspace s = true
    /\ validate_text_default isalnum s = Ok [].
Proof.
  exists (u "   "). split; [done|]. split; [done|].
  apply validate_text_default_ok. repeat split; try done.
  simpl. unfold text_class. simpl. by rewrite !orb_true_r.
Qed.

End TextValidation.

Import InputValidator.

(** The witness of C2: the idempotence at the text [ ok ] between spaces. *)
Lemma validate_text_idempotent_witness :
  validate_text_default ascii_isalnum (u " ok ") = Ok (u "ok")
  /\ validate_text_default ascii_isalnum (u "ok") = Ok (u "ok").
Proof.
  split; [reflexivity|].
  apply (validate_text_idempotent_nonempty ascii_isalnum (u " ok ") (u "ok"));
    [reflexivity | discriminate].
Defined.

(** C2 as stated fails: three spaces are accepted and give the empty
    string, and the empty string is rejected. *)
Lemma validate_text_not_idempotent :
  validate_text_default ascii_isalnum (u "   ") = Ok []
  /\ validate_text_default ascii_isalnum []
     = Raise (ValueError (u "Text contains invalid characters")).
Proof. split; reflexivity. Qed.

Section MoreStrings.
Implicit Types s t : pystr.

Lemma startswith_app s t : startswith (s ++ t) s = true.
Proof. induction s as [|c s IH]; simpl; [done|]. by rewrite Z.eqb_refl, IH. Qed.

Lemma startswith_split s l :
  startswith s l = true -> s = l ++ skipn (length l) s.
Proof.
  revert s. induction l as [|p l IH]; intros s; simpl; [done|].
  destruct s as [|c s]; [done|].
  intros [->%Z.eqb_eq H]%andb_true_iff. simpl. f_equal. by apply IH.
Qed.

Lemma contains_spec s needle :
  contains s needle = true <-> exists p q, s = p ++ needle ++ q.
Proof.
  split.
  - induction s as [|c s IH]; simpl.
    + rewrite orb_false_r. intros H. exists [], (skipn (length needle) []).
      by apply startswith_split.
    + intros [H|H]%orb_true_iff.
      * exists [], (skipn (length needle) (c :: s)). by apply startswith_split.
      * destruct (IH H) as (p & q & ->). by exists (c :: p), q.
  - intros (p & q & ->). induction p as [|c p IH].
    + simpl app. destruct (needle ++ q) eqn:E; simpl; rewrite <- E;
        by rewrite startswith_app.
    + simpl. by rewrite IH, orb_true_r.
Qed.

Lemma contains_trans s t m :
  contains s t = true -> contains t m = true -> contains s m = true.
Proof.
  rewrite !contains_spec. intros (p & q & ->) (p' & q' & ->).
  exists (p ++ p'), (q' ++ q). by rewrite <- !app_assoc.
Qed.

Lemma contains_app_l s t : contains (s ++ t) s = true.
Proof. apply contains_spec. by exists [], t. Qed.

Lemma contains_cons c s m : contains s m = true -> contains (c :: s) m = true.
Proof. simpl. intros ->. apply orb_true_r. Qed.

Lemma contains_app_r s t m : contains t m = true -> contains (s ++ t) m = true.
Proof. intros H. induction s; [done|]. by apply contains_cons. Qed.

End MoreStrings.

(** * More of the matcher *)

Section MoreMatcher.
Context {R : Type}.
Implicit Types (k : cursor -> option R) (g : list pystr).

Lemma exec_lits l n s g k :
  exec (lits l) (mkCursor n s g) k
  = if startswith s l then k (mkCursor (n + length l) (skipn (length l) s) g)
    else None.
Proof.
  revert n s. induction l as [|p l IH]; intros n s; simpl.
  - by rewrite Nat.add_0_r.
  - destruct s as [|c s]; [done|]. simpl.
    destruct (c =? p); [|done]. simpl. rewrite IH.
    by replace (S n + length l)%nat with (n + S (length l))%nat by lia.
Qed.

(** A greedy run stops at the first character outside the class; when the
    continuation accepts there, that is the match. *)
Lemma star_run p g k n w s x :
  forallb p w = true ->
  match s with [] => True | c :: _ => p c = false end ->
  k (mkCursor (n + length w) s g) = Some x ->
  star p g k n (w ++ s) = Some x.
Proof.
  intros Hw Hs. revert n. induction w as [|c w IH]; intros n Hk; simpl in *.
  - rewrite Nat.add_0_r in Hk. destruct s as [|c s]; simpl; [done|]. by rewrite Hs.
  - apply andb_true_iff in Hw as [-> Hw]. rewrite (IH Hw (S n)); [done|].
    by replace (S n + length w)%nat with (n + S (length w))%nat by lia.
Qed.

(** A run fails when the continuation fails wherever the run can stop. *)
Lemma star_none (Q : pystr -> Prop) p g k n s :
  (forall c t, Q (c :: t) -> Q t) ->
  (forall m t, Q t -> k (mkCursor m t g) = None) ->
  Q s -> star p g k n s = None.
Proof.
  intros Htl Hk. revert n. induction s as [|c s IH]; intros n HQ; simpl.
  - by apply Hk.
  - destruct (p c); [|by apply Hk].
    rewrite IH by (by eapply Htl). by apply Hk.
Qed.

End MoreMatcher.

(** * Substitution *)

Section Sub.
Variable r : regex.
Variable repl : list pystr -> pystr.

Lemma sub_step_none n x s :
  exec r (mkCursor n (x :: s) []) Some = None ->
  sub_from r repl 0 n (x :: s) = x :: sub_from r repl 0 (S n) s.
Proof. intros H. simpl. by rewrite H. Qed.

Lemma sub_nil_none n :
  exec r (mkCursor n [] []) Some = None -> sub_from r repl 0 n [] = [].
Proof. intros H. simpl. by rewrite H. Qed.

Lemma sub_skip w n s :
  sub_from r repl (length w) n (w ++ s) = sub_from r repl 0 (n + length w) s.
Proof.
  revert n. induction w as [|c w IH]; intros n; simpl.
  - by rewrite Nat.add_0_r.
  - rewrite IH. f_equal. lia.
Qed.

(** A match over the text [w], found at the start of [w ++ s]. *)
Lemma sub_step_match n w s g :
  w <> [] ->
  exec r (mkCursor n (w ++ s) []) Some = Some (mkCursor (n + length w) s g) ->
  sub_from r repl 0 n (w ++ s) = repl g ++ sub_from r repl 0 (n + length w) s.
Proof.
  intros Hw H. destruct w as [|c w]; [done|]. simpl app in *.
  cbn [sub_from]. rewrite H. cbn [pos groups].
  replace (n + length (c :: w) - n)%nat with (S (length w)) by (simpl; lia).
  rewrite sub_skip.
  simpl. by rewrite Nat.add_succ_r.
Qed.

(** Characters at which no match can start are copied. *)
Lemma sub_copy (P : Z -> bool) n pre s :
  (forall m x t, P x = true -> exec r (mkCursor m (x :: t) []) Some = None) ->
  forallb P pre = true ->
  sub_from r repl 0 n (pre ++ s) = pre ++ sub_from r repl 0 (n + length pre) s.
Proof.
  intros Hno. revert n. induction pre as [|x pre IH]; intros n Hpre.
  - simpl. by rewrite Nat.add_0_r.
  - simpl in Hpre. apply andb_true_iff in Hpre as [Hx Hpre].
    simpl app. rewrite sub_step_none by (by apply Hno).
    rewrite IH by done.
    simpl. by rewrite Nat.add_succ_r.
Qed.

(** A substitution changes nothing or inserts its replacement. *)
Lemma sub_same_or_replaced (text : pystr) skip n s :
  (forall g, repl g = text) ->
  sub_from r repl skip n s = skipn skip s
  \/ contains (sub_from r repl skip n s) text = true.
Proof.
  intros Hrepl. revert skip n. induction s as [|x s IH]; intros skip n.
  - destruct skip; simpl; [|by left].
    destruct (exec r _ Some); [|by left].
    right. rewrite Hrepl. rewrite <- (app_nil_r text) at 1. apply contains_app_l.
  - destruct skip as [|skip]; [|apply IH].
    cbn [sub_from skipn]. destruct (exec r _ Some) as [c'|].
    + right. rewrite Hrepl. destruct (pos c' - n)%nat; apply contains_app_l.
    + destruct (IH 0%nat (S n)) as [->|H]; [by left|].
      right. by apply contains_cons.
Qed.

(** The characters of the result are characters of the subject or of the
    replacement. *)
Lemma sub_forallb (P : Z -> bool) skip n s :
  (forall g, forallb P (repl g) = true) ->
  forallb P s = true ->
  forallb P (sub_from r repl skip n s) = true.
Proof.
  intros Hrepl. revert skip n. induction s as [|x s IH]; intros skip n Hs.
  - destruct skip; simpl; [|done]. destruct (exec r _ Some); [apply Hrepl|done].
  - simpl in Hs. apply andb_true_iff in Hs as [Hx Hs].
    destruct skip as [|skip]; [|by apply IH].
    cbn [sub_from]. destruct (exec r _ Some) as [c'|].
    + destruct (pos c' - n)%nat; rewrite forallb_app, Hrepl; simpl;
        rewrite ?Hx, IH; done.
    + simpl. by rewrite Hx, IH.
Qed.

(** A subject in which a match exists somewhere gets a replacement. *)
Lemma sub_replaces (text : pystr) n pre s :
  (forall g, repl g = text) ->
  (forall m, is_Some (exec r (mkCursor m s []) Some)) ->
  contains (sub_from r repl 0 n (pre ++ s)) text = true.
Proof.
  intros Hrepl Hm. revert n. induction pre as [|x pre IH]; intros n.
  - simpl app. destruct (Hm n) as [c' Hc']. destruct s as [|x s]; simpl;
      rewrite Hc', Hrepl.
    + rewrite <- (app_nil_r text) at 1. apply contains_app_l.
    + destruct (pos c' - n)%nat; apply contains_app_l.
  - simpl app. cbn [sub_from]. destruct (exec r _ Some) as [c'|].
    + rewrite Hrepl. destruct (pos c' - n)%nat; apply contains_app_l.
    + apply contains_cons, IH.
Qed.

(** A subject in which the pattern matches nowhere is left as it is. *)
Lemma sub_unmatched (Q : pystr -> Prop) n s :
  (forall c t, Q (c :: t) -> Q t) ->
  (forall m t, Q t -> exec r (mkCursor m t []) Some = None) ->
  Q s -> sub_from r repl 0 n s = s.
Proof.
  intros Htl Hno. revert n. induction s as [|x s IH]; intros n HQ.
  - by apply sub_nil_none, Hno.
  - rewrite sub_step_none by (by apply Hno). rewrite IH; [done|by eapply Htl].
Qed.

End Sub.

(** * Log redaction *)

Section Redaction.
Import LogRedactor.

Lemma isspace_dq : isspace dq = false.
Proof. reflexivity. Qed.

Lemma text_re_field : _SANITIZE_TEXT_RE = field_re (u "text") dq dq.
Proof. reflexivity. Qed.
Lemma query_re_field : _SANITIZE_QUERY_RE = field_re (u "query") dq dq.
Proof. reflexivity. Qed.
Lemma tags_re_field : _SANITIZE_TAGS_RE = field_re (u "tags") 91 93.
Proof. reflexivity. Qed.

(** No field pattern matches at a character that is not a double quote. *)
Lemma field_re_needs_dq key opening closing m x t :
  not_dq x = false \/ exec (field_re key opening closing) (mkCursor m (x :: t) []) Some = None.
Proof.
  unfold not_dq. destruct (Z.eqb_spec x dq) as [->|Hne]; [by left|right].
  unfold field_re. cbn [exec]. rewrite exec_lits. cbn [startswith].
  by destruct (Z.eqb_spec x dq).
Qed.

Lemma field_re_not_dq key opening closing m x t :
  not_dq x = true ->
  exec (field_re key opening closing) (mkCursor m (x :: t) []) Some = None.
Proof.
  intros H. destruct (field_re_needs_dq key opening closing m x t) as [H'|]; [|done].
  congruence.
Qed.

Lemma field_re_nil key opening closing m :
  exec (field_re key opening closing) (mkCursor m [] []) Some = None.
Proof. unfold field_re. cbn [exec]. by rewrite exec_lits. Qed.

(** A field pattern leaves a text without double quote as it is. *)
Lemma field_sub_no_dq key opening closing repl n s :
  forallb not_dq s = true ->
  sub_from (field_re key opening closing) repl 0 n s = s.
Proof.
  intros H. rewrite <- (app_nil_r s) at 1.
  rewrite (sub_copy _ _ not_dq) by (done || apply field_re_not_dq).
  by rewrite sub_nil_none, app_nil_r by apply field_re_nil.
Qed.

(** The text pattern matches a text field, whatever follows it. *)
Lemma text_re_matches_field ws value post m :
  forallb isspace ws = true ->
  forallb not_dq value = true ->
  exec _SANITIZE_TEXT_RE (mkCursor m (text_field ws value ++ post) []) Some
  = Some (mkCursor (m + length (text_field ws value)) post []).
Proof.
  intros Hws Hv. unfold _SANITIZE_TEXT_RE, text_field.
  cbn [exec]. rewrite exec_lits.
  replace ((dq :: u "text" ++ [dq; 58] ++ ws ++ [dq] ++ value ++ [dq]) ++ post)
    with ((dq :: u "text" ++ [dq; 58]) ++ ws ++ dq :: value ++ dq :: post)
    by (repeat (simpl; rewrite <- app_assoc); done).
  rewrite startswith_app, drop_app_length.
  cbn [pos rest groups].
  erewrite star_run; [reflexivity|done|done|].
  cbn [exec rest pos groups]. rewrite Z.eqb_refl.
  erewrite star_run; [reflexivity|done|done|].
  cbn [exec rest pos groups]. rewrite Z.eqb_refl.
  do 2 f_equal. simpl. rewrite !length_app. simpl. rewrite !length_app. simpl. lia.
Qed.

(** The first substitution on a text that contains a text field. *)
Lemma text_stage_replaces pre ws value post :
  forallb isspace ws = true ->
  forallb not_dq value = true ->
  contains (re_sub _SANITIZE_TEXT_RE (fun _ => text_repl)
              (pre ++ text_field ws value ++ post)) text_repl = true.
Proof.
  intros Hws Hv. apply sub_replaces; [done|].
  intros m. by rewrite text_re_matches_field.
Qed.

Lemma text_stage_exact pre ws value post :
  forallb isspace ws = true ->
  forallb not_dq value = true ->
  forallb not_dq pre = true ->
  forallb not_dq post = true ->
  re_sub _SANITIZE_TEXT_RE (fun _ => text_repl) (pre ++ text_field ws value ++ post)
  = pre ++ text_repl ++ post.
Proof.
  intros Hws Hv Hpre Hpost. unfold re_sub. rewrite text_re_field.
  rewrite (sub_copy _ _ not_dq) by (done || apply field_re_not_dq).
  rewrite <- text_re_field.
  rewrite (sub_step_match _ _ _ (text_field ws value) post []);
    [|done|by apply text_re_matches_field].
  rewrite text_re_field. by rewrite field_sub_no_dq.
Qed.

(** The marker survives a later field substitution: the text is unchanged
    or receives a replacement, which holds the marker too. *)
Lemma field_stage_keeps_marker r text s :
  contains text REDACTED = true ->
  contains s REDACTED = true ->
  contains (re_sub r (fun _ => text) s) REDACTED = true.
Proof.
  intros Ht Hs. unfold re_sub.
  destruct (sub_same_or_replaced r (fun _ => text) text 0 0 s) as [->|H]; [done|done|].
  by apply (contains_trans _ text).
Qed.

(** A later field pattern matches nowhere in the replacement of a text
    field that is followed by no double quote. *)
Lemma field_sub_after_text_repl key opening closing repl n post :
  (key = u "query" /\ opening = dq /\ closing = dq)
  \/ (key = u "tags" /\ opening = 91 /\ closing = 93) ->
  forallb not_dq post = true ->
  sub_from (field_re key opening closing) repl 0 n (text_repl ++ post)
  = text_repl ++ post.
Proof.
  intros Hkey Hpost.
  assert (exec (field_re key opening closing) (mkCursor (18 + n) (dq :: post) []) Some = None)
    as Hlast.
  { unfold field_re. cbn [exec]. rewrite exec_lits.
    destruct (startswith (dq :: post) (dq :: key ++ [dq; 58])) eqn:E; [|done].
    apply startswith_split in E. injection E as E.
    rewrite E in Hpost. rewrite <- app_assoc, !forallb_app in Hpost.
    apply andb_true_iff in Hpost as [_ Hpost]. simpl in Hpost. done. }
  change (text_repl ++ post) with
    (34 :: 116 :: 101 :: 120 :: 116 :: 34 :: 58 :: 34 :: 91 :: 82 :: 69 :: 68
       :: 65 :: 67 :: 84 :: 69 :: 68 :: 93 :: dq :: post).
  destruct Hkey as [(-> & -> & ->)|(-> & -> & ->)].
  all: do 18 (rewrite sub_step_none by reflexivity).
  all: rewrite sub_step_none by exact Hlast.
  all: by rewrite field_sub_no_dq.
Qed.


Lemma forallb_tail (P : Z -> bool) c (t : pystr) :
  forallb P (c :: t) = true -> forallb P t = true.
Proof. simpl. by intros [_ H]%andb_true_iff. Qed.

Lemma forallb_skipn (P : Z -> bool) k (t : pystr) :
  forallb P t = true -> forallb P (skipn k t) = true.
Proof.
  revert t. induction k as [|k IH]; intros [|c t]; simpl; try done.
  intros [_ H]%andb_true_iff. by apply IH.
Qed.

(** The path pattern needs a path separator. *)
Lemma path_re_needs_sep m t :
  forallb not_sep t = true ->
  exec _SANITIZE_PATH_RE (mkCursor m t []) Some = None.
Proof.
  intros Ht. unfold _SANITIZE_PATH_RE. cbn [exec]. rewrite exec_lits.
  destruct (startswith t _); [|done]. cbn [pos rest groups].
  apply (star_none (fun t => forallb not_sep t = true)).
  - apply forallb_tail.
  - intros m' [|x t'] Ht'; cbn; [done|].
    simpl in Ht'. apply andb_true_iff in Ht' as [Hx _].
    unfold not_sep in Hx. by destruct (is_sep x).
  - by apply forallb_skipn.
Qed.

Lemma path_stage_no_sep s :
  forallb not_sep s = true -> re_sub _SANITIZE_PATH_RE path_repl s = s.
Proof.
  intros H. apply (sub_unmatched _ _ (fun t => forallb not_sep t = true));
    [apply forallb_tail|apply path_re_needs_sep|done].
Qed.

(** The path pattern after the replacement of a text field. *)

Lemma contains_tail c (s m : pystr) :
  contains (c :: s) m = false -> contains s m = false.
Proof. simpl. by intros [_ H]%orb_false_iff. Qed.

Lemma contains_drop (w s m : pystr) :
  contains (w ++ s) m = false -> contains s m = false.
Proof.
  intros H. destruct (contains s m) eqn:E; [|done].
  by rewrite (contains_app_r w s m E) in H.
Qed.

Lemma startswith_next (s l : pystr) x t :
  startswith s l = true -> skipn (length l) s = x :: t ->
  startswith s (l ++ [x]) = true.
Proof.
  revert s. induction l as [|p l IH]; intros s; simpl.
  - intros _ Hs. change (s = x :: t) in Hs. subst s. simpl.
    by rewrite Z.eqb_refl.
  - destruct s as [|c s]; [done|]. intros [-> H]%andb_true_iff Hs.
    simpl. by apply IH.
Qed.

Lemma startswith_contains (s m : pystr) :
  startswith s m = true -> contains s m = true.
Proof. intros H. destruct s; simpl; by rewrite H. Qed.

(** What follows the opening quote of the path pattern cannot match in a
    text without [.py] before a double quote. *)
Lemma path_tail_needs_py m t g :
  contains t py_dq = false ->
  exec (Cat (Star dot)
          (Cat (Class is_sep)
             (Cat (Group (Cat (Plus not_sep) (lits (u ".py")))) (Lit dq))))
       (mkCursor m t g) (@Some cursor) = None.
Proof.
  intros Ht. cbn [exec pos rest groups].
  apply (star_none (fun t => contains t py_dq = false));
    [intros ? ?; apply contains_tail| |done].
  clear m t Ht. intros m [|x t] Ht; [done|]. cbn [rest pos groups].
  destruct (is_sep x); [|done].
  destruct t as [|y t]; [done|]. destruct (not_sep y); [|done].
  apply contains_tail in Ht.
  apply (star_none (fun t => contains t py_dq = false));
    [intros ? ?; apply contains_tail| |by apply contains_tail in Ht].
  intros m2 s Hs. rewrite exec_lits.
  destruct (startswith s (u ".py")) eqn:E; [|done]. cbn [pos rest groups].
  destruct (skipn (length (u ".py")) s) as [|z s'] eqn:Es; [done|].
  destruct (Z.eqb_spec z dq) as [->|]; [|done].
  rewrite (startswith_contains s py_dq) in Hs; [done|].
  by apply (startswith_next s (u ".py") dq s').
Qed.

Lemma no_py_after_dq_tail c t : no_py_after_dq (c :: t) -> no_py_after_dq t.
Proof. intros H a b ->. by apply (H (c :: a) b). Qed.

Lemma path_re_needs_py m t :
  no_py_after_dq t -> exec _SANITIZE_PATH_RE (mkCursor m t []) Some = None.
Proof.
  intros Ht. unfold _SANITIZE_PATH_RE. cbn [exec]. rewrite exec_lits.
  destruct (startswith t _) eqn:E; [|done].
  apply path_tail_needs_py.
  apply startswith_split in E. apply (Ht (u "File ")).
  rewrite E at 1. by rewrite <- app_assoc.
Qed.

(** A double quote of [pre ++ s] is one of [s] when [pre] has none. *)
Lemma dq_after_prefix pre s a b :
  forallb not_dq pre = true ->
  pre ++ s = a ++ dq :: b ->
  exists a', s = a' ++ dq :: b.
Proof.
  revert a. induction pre as [|x pre IH]; intros a Hpre H; [by exists a|].
  simpl in Hpre. apply andb_true_iff in Hpre as [Hx Hpre].
  destruct a as [|y a]; simpl in H; injection H as -> H; [done|].
  by apply (IH a).
Qed.

Lemma no_py_in_no_dq (t : pystr) :
  forallb not_dq t = true -> contains t py_dq = false.
Proof.
  intros Ht. destruct (contains t py_dq) eqn:E; [|done].
  apply contains_spec in E as (p & q & ->).
  rewrite !forallb_app in Ht. simpl in Ht.
  by rewrite !andb_false_r in Ht.
Qed.

Lemma text_repl_no_py post :
  forallb not_dq post = true ->
  no_py_after_dq (text_repl ++ post).
Proof.
  intros Hpost a b H.
  assert (contains (u "text" ++ [dq; 58; dq] ++ REDACTED ++ [dq] ++ post) py_dq = false)
    as Hall.
  { cbn. exact (no_py_in_no_dq post Hpost). }
  unfold text_repl in H. simpl in H.
  destruct a as [|y a]; simpl in H.
  - injection H as H. by subst b.
  - injection H as _ H. apply (contains_drop (a ++ [dq])).
    rewrite <- app_assoc. simpl. by rewrite <- H.
Qed.

Lemma path_stage_after_text pre post :
  forallb not_dq pre = true ->
  forallb not_dq post = true ->
  re_sub _SANITIZE_PATH_RE path_repl (pre ++ text_repl ++ post)
  = pre ++ text_repl ++ post.
Proof.
  intros Hpre Hpost.
  apply (sub_unmatched _ _ no_py_after_dq);
    [apply no_py_after_dq_tail|apply path_re_needs_py|].
  intros a b H. destruct (dq_after_prefix _ _ _ _ Hpre H) as [a' H'].
  by apply (text_repl_no_py post Hpost a' b).
Qed.

(** The field substitutions bring no quoted path *)

Section FieldStagesKeepPaths.

Lemma dq_last_only_tail c l : dq_last_only (c :: l) -> dq_last_only l.
Proof. intros H a b ->. by apply (H (c :: a) b). Qed.

Lemma dq_last_only_py_dq : dq_last_only py_dq.
Proof.
  intros a b H. unfold py_dq in H. simpl in H.
  do 4 (destruct a as [|? a]; [by injection H|injection H as _ H]).
  by destruct a.
Qed.

Lemma startswith_cons_inv x (s : pystr) c l :
  startswith (x :: s) (c :: l) = true -> x = c /\ startswith s l = true.
Proof. simpl. by intros [->%Z.eqb_eq H]%andb_true_iff. Qed.

Variable r : regex.
Variable text : pystr.
Hypothesis r_needs_dq :
  forall m x t, not_dq x = true -> exec r (mkCursor m (x :: t) []) Some = None.
Hypothesis r_not_empty : forall m, exec r (mkCursor m [] []) Some = None.
Hypothesis text_no_py :
  forall out, contains ((dq :: text) ++ out) py_dq = contains out py_dq.

Abbreviation sub := (sub_from r (fun _ => dq :: text)).

(** What the result starts with, the subject starts with, up to the first
    double quote. *)
Lemma sub_startswith l skip n s :
  dq_last_only l ->
  startswith (sub skip n s) l = true ->
  startswith (skipn skip s) l = true.
Proof.
  intros Hl. revert l Hl skip n. induction s as [|x s IH]; intros l Hl skip n.
  - destruct skip; simpl; rewrite ?r_not_empty; done.
  - destruct skip as [|skip]; [|apply (IH l Hl skip)].
    cbn [sub_from skipn].
    destruct (exec r _ Some) as [c'|] eqn:E.
    + assert (x = dq) as ->.
      { destruct (not_dq x) eqn:Hx; [by rewrite r_needs_dq in E|].
        unfold not_dq in Hx. by destruct (Z.eqb_spec x dq). }
      destruct l as [|c l]; [done|].
      intros H. assert (c = dq /\ l = []) as [-> ->].
      { destruct (pos c' - n)%nat; cbn [app startswith] in H;
          apply andb_true_iff in H as [<-%Z.eqb_eq _];
          by rewrite (Hl [] l eq_refl). }
      reflexivity.
    + destruct l as [|c l]; [done|]. simpl.
      intros [-> H]%andb_true_iff. simpl.
      apply (IH l (dq_last_only_tail _ _ Hl) 0%nat) in H. exact H.
Qed.

(** A field substitution brings no [.py] before a double quote. *)
Lemma sub_no_py skip n s :
  contains (skipn skip s) py_dq = false ->
  contains (sub skip n s) py_dq = false.
Proof.
  revert skip n. induction s as [|x s IH]; intros skip n.
  - destruct skip; simpl; rewrite ?r_not_empty; done.
  - destruct skip as [|skip]; [|apply (IH skip)].
    cbn [sub_from skipn]. intros Hs.
    destruct (exec r _ Some) as [c'|] eqn:E.
    + assert (x = dq) as ->.
      { destruct (not_dq x) eqn:Hx; [by rewrite r_needs_dq in E|].
        unfold not_dq in Hx. by destruct (Z.eqb_spec x dq). }
      destruct (pos c' - n)%nat as [|k]; rewrite text_no_py.
      * change (false || contains (sub 0 (S n) s) py_dq = false).
        apply (IH 0%nat (S n)). by apply contains_tail in Hs.
      * apply IH. apply (contains_drop (firstn (S k) (dq :: s))).
        change (skipn k s) with (skipn (S k) (dq :: s)).
        by rewrite firstn_skipn.
    + destruct (contains (x :: sub 0 (S n) s) py_dq) eqn:Hc; [|done].
      change (startswith (x :: sub 0 (S n) s) py_dq
              || contains (sub 0 (S n) s) py_dq = true) in Hc.
      apply orb_true_iff in Hc as [Hc|Hc].
      * apply (startswith_cons_inv x _ 46 (u "py" ++ [dq])) in Hc as [-> Hc].
        apply (sub_startswith _ 0%nat) in Hc;
          [|apply (dq_last_only_tail 46), dq_last_only_py_dq].
        rewrite (startswith_contains (46 :: s) py_dq) in Hs; [done|exact Hc].
      * rewrite (IH 0%nat (S n)) in Hc; [done|]. by apply contains_tail in Hs.
Qed.

End FieldStagesKeepPaths.

Lemma field_stage_no_py key opening closing text s :
  (forall out, contains ((dq :: text) ++ out) py_dq = contains out py_dq) ->
  contains s py_dq = false ->
  contains (re_sub (field_re key opening closing) (fun _ => dq :: text) s) py_dq
  = false.
Proof.
  intros Ht Hs.
  by apply (sub_no_py _ text (field_re_not_dq key opening closing)
              (field_re_nil key opening closing) Ht).
Qed.

Lemma redact_no_py data :
  contains data py_dq = false ->
  redact data
  = re_sub _SANITIZE_TAGS_RE (fun _ => tags_repl)
      (re_sub _SANITIZE_QUERY_RE (fun _ => query_repl)
         (re_sub _SANITIZE_TEXT_RE (fun _ => text_repl) data)).
Proof.
  intros H. unfold redact.
  apply (sub_unmatched _ _ no_py_after_dq);
    [apply no_py_after_dq_tail|apply path_re_needs_py|].
  intros a b Hab. apply (contains_drop (a ++ [dq])). rewrite <- app_assoc.
  simpl. rewrite <- Hab. rewrite text_re_field, query_re_field, tags_re_field.
  apply (field_stage_no_py (u "tags") 91 93
           (u "tags" ++ [dq; 58; dq] ++ REDACTED ++ [dq])); [done|].
  apply (field_stage_no_py (u "query") dq dq
           (u "query" ++ [dq; 58; dq] ++ REDACTED ++ [dq])); [done|].
  by apply (field_stage_no_py (u "text") dq dq
              (u "text" ++ [dq; 58; dq] ++ REDACTED ++ [dq])).
Qed.

(** An output that is not longer than [max_length] was not truncated. *)
Lemma truncate_short max_length data :
  len (truncate max_length data) <= max_length ->
  truncate max_length data = data.
Proof.
  unfold truncate. destruct (Z.ltb_spec max_length (len data)) as [Hlt|]; [|done].
  unfold len, slice_to in *. rewrite length_app. simpl.
  destruct (Z.ltb_spec max_length 0); [lia|].
  rewrite length_firstn. lia.
Qed.

Lemma truncate_fits max_length data :
  len data <= max_length -> truncate max_length data = data.
Proof.
  unfold truncate. intros H.
  destruct (Z.ltb_spec max_length (len data)); [lia|done].
Qed.

(** Without path separator in the input, [redact] ends with the result of
    the three field substitutions. *)
Lemma redact_no_sep data :
  forallb not_sep data = true ->
  redact data
  = re_sub _SANITIZE_TAGS_RE (fun _ => tags_repl)
      (re_sub _SANITIZE_QUERY_RE (fun _ => query_repl)
         (re_sub _SANITIZE_TEXT_RE (fun _ => text_repl) data)).
Proof.
  intros H. unfold redact. apply path_stage_no_sep.
  unfold re_sub. repeat apply sub_forallb; done.
Qed.


End Redaction.

Import LogRedactor.



(** * RateLimiter *)

Section RateLimiterProofs.
Import RateLimiter.
Implicit Types (st : state) (key : pystr) (now : Q).

Lemma Qltb_true a b : Qltb a b = true <-> (a < b)%Q.
Proof.
  unfold Qltb. rewrite negb_true_iff. split.
  - intros H. apply Qnot_le_lt. intros Hle. apply Qle_bool_iff in Hle. congruence.
  - intros H. destruct (Qle_bool b a) eqn:E; [|done].
    apply Qle_bool_iff in E. lra.
Qed.

Lemma Qltb_false a b : Qltb a b = false <-> (b <= a)%Q.
Proof.
  unfold Qltb. rewrite negb_false_iff. apply Qle_bool_iff.
Qed.

Lemma inject_Z_pred r : (inject_Z (r - 1) == inject_Z r - 1)%Q.
Proof. unfold Qeq, Qminus, Qplus, Qopp, inject_Z. simpl. lia. Qed.

Lemma py_min_le_l a b : (py_min a b <= a)%Q.
Proof.
  unfold py_min. destruct (Qltb b a) eqn:E; [|lra].
  apply Qltb_true in E. lra.
Qed.

(** ** The sweep *)

Lemma drop_keys_buckets keys st key :
  _buckets (fold_left drop_key keys st) !! key
  = if bool_decide (key ∈ keys) then None else _buckets st !! key.
Proof.
  revert st. induction keys as [|k keys IH]; intros st.
  - by rewrite bool_decide_eq_false_2 by apply not_elem_of_nil.
  - cbn [fold_left]. rewrite IH. cbn [drop_key _buckets].
    destruct (decide (key = k)) as [->|Hne].
    + rewrite lookup_delete_eq.
      rewrite (bool_decide_eq_true_2 (k ∈ k :: keys)) by apply list_elem_of_here.
      by destruct (bool_decide (k ∈ keys)).
    + rewrite lookup_delete_ne by done.
      rewrite (bool_decide_ext (key ∈ k :: keys) (key ∈ keys)); [done|].
      rewrite elem_of_cons. split; [by intros [?|?]|by right].
Qed.

Lemma drop_keys_counts keys st key :
  _call_counts (fold_left drop_key keys st) !! key
  = if bool_decide (key ∈ keys) then None else _call_counts st !! key.
Proof.
  revert st. induction keys as [|k keys IH]; intros st.
  - by rewrite bool_decide_eq_false_2 by apply not_elem_of_nil.
  - cbn [fold_left]. rewrite IH. cbn [drop_key _call_counts].
    destruct (decide (key = k)) as [->|Hne].
    + rewrite lookup_delete_eq.
      rewrite (bool_decide_eq_true_2 (k ∈ k :: keys)) by apply list_elem_of_here.
      by destruct (bool_decide (k ∈ keys)).
    + rewrite lookup_delete_ne by done.
      rewrite (bool_decide_ext (key ∈ k :: keys) (key ∈ keys)); [done|].
      rewrite elem_of_cons. split; [by intros [?|?]|by right].
Qed.

Lemma drop_keys_last_cleanup keys st :
  _last_cleanup (fold_left drop_key keys st) = _last_cleanup st.
Proof. revert st. induction keys as [|k keys IH]; intros st; simpl; [done|]. by rewrite IH. Qed.

Lemma stale_keys_in_buckets now st key :
  key ∈ stale_keys now st -> is_Some (_buckets st !! key).
Proof.
  unfold stale_keys. rewrite list_elem_of_In, in_map_iff.
  intros ([k b] & <- & [Hin _]%filter_In). simpl.
  apply list_elem_of_In, elem_of_map_to_list in Hin. by exists b.
Qed.

(** The sweep deletes a bucket or leaves it as it is, and a key that keeps
    its bucket keeps its counter. *)
Lemma cleanup_buckets now st key :
  _buckets (_cleanup_stale_entries now st) !! key = None
  \/ _buckets (_cleanup_stale_entries now st) !! key = _buckets st !! key
     /\ _call_counts (_cleanup_stale_entries now st) !! key = _call_counts st !! key.
Proof.
  unfold _cleanup_stale_entries. rewrite drop_keys_buckets, drop_keys_counts.
  case_bool_decide; auto.
Qed.

Lemma cleanup_fresh now st key :
  _buckets st !! key = None ->
  _buckets (_cleanup_stale_entries now st) !! key = None.
Proof.
  intros H. unfold _cleanup_stale_entries. rewrite drop_keys_buckets.
  by case_bool_decide.
Qed.

Lemma cleanup_due_buckets now st key :
  _buckets (periodic_cleanup now st) !! key = None
  \/ _buckets (periodic_cleanup now st) !! key = _buckets st !! key
     /\ _call_counts (periodic_cleanup now st) !! key = _call_counts st !! key.
Proof.
  unfold periodic_cleanup. destruct (Qltb _ _); [|auto]. simpl. apply cleanup_buckets.
Qed.

Lemma cleanup_due_fresh now st key :
  _buckets st !! key = None -> _buckets (periodic_cleanup now st) !! key = None.
Proof.
  unfold periodic_cleanup. destruct (Qltb _ _); [|auto]. simpl. apply cleanup_fresh.
Qed.

(** No second sweep at the same clock reading. *)
Lemma cleanup_due_settled now st :
  Qltb _CLEANUP_INTERVAL (now - _last_cleanup (periodic_cleanup now st)) = false.
Proof.
  unfold periodic_cleanup.
  destruct (Qltb _CLEANUP_INTERVAL (now - _last_cleanup st)) eqn:E; [|done].
  simpl. apply Qltb_false. unfold _CLEANUP_INTERVAL. lra.
Qed.

Lemma cleanup_due_id now st :
  Qltb _CLEANUP_INTERVAL (now - _last_cleanup st) = false -> periodic_cleanup now st = st.
Proof. unfold periodic_cleanup. by intros ->. Qed.

Lemma check_unfold now identifier operation max_per_second st :
  check now identifier operation max_per_second st =
  let st1 := periodic_cleanup now st in
  let key := key_of identifier operation in
  match _buckets st1 !! key with
  | None =>
      (true,
       mkState (<[key := (inject_Z max_per_second, now)]> (_buckets st1))
               (<[key := 1]> (_call_counts st1)) (_last_cleanup st1))
  | Some (tokens, last_refill) =>
      let tokens :=
        py_min (inject_Z max_per_second)
               (tokens + (now - last_refill) * inject_Z max_per_second)%Q in
      if Qle_bool 1 tokens then
        (true,
         mkState (<[key := ((tokens - 1)%Q, now)]> (_buckets st1))
                 (<[key := default 0 (_call_counts st1 !! key) + 1]>
                    (_call_counts st1))
                 (_last_cleanup st1))
      else (false, st1)
  end.
Proof. reflexivity. Qed.

(** C7: a rejected call leaves the key as it was. Whenever [check] answers
    [False], the bucket of the key (its tokens and its last refill time)
    and the call counter of the key are what they were before the call. *)
Theorem check_rejected_keeps_key now identifier operation max_per_second st st' :
  check now identifier operation max_per_second st = (false, st') ->
  _buckets st' !! key_of identifier operation
    = _buckets st !! key_of identifier operation
  /\ _call_counts st' !! key_of identifier operation
    = _call_counts st !! key_of identifier operation
  /\ get_call_count identifier operation st'
    = get_call_count identifier operation st.
Proof.
  rewrite check_unfold. cbv zeta.
  destruct (cleanup_due_buckets now st (key_of identifier operation)) as [Hnone|[Hb Hc]].
  - rewrite Hnone. done.
  - destruct (_buckets (periodic_cleanup now st) !! key_of identifier operation)
      as [[tokens last_refill]|] eqn:E; [|done].
    destruct (Qle_bool 1 _); [done|]. intros [= <-].
    unfold get_call_count. by rewrite E, Hc.
Qed.


(** ** Sequences of calls *)

Lemma run_call_fold calls acc st :
  fold_left run_call calls (acc, st)
  = (acc ++ fst (run calls st), snd (run calls st)).
Proof.
  unfold run. revert acc st. induction calls as [|c calls IH]; intros acc st.
  - simpl. by rewrite app_nil_r.
  - cbn [fold_left]. unfold run_call at 2 4 6. cbn [fst snd].
    destruct (check _ _ _ _ st) as [b st1]. cbn [fst snd app].
    rewrite (IH [b]), IH. cbn [fst snd]. by rewrite <- app_assoc.
Qed.

Lemma run_cons c calls st :
  run (c :: calls) st =
  let (b, st1) :=
    check (call_now c) (call_identifier c) (call_operation c) (call_max c) st in
  (b :: fst (run calls st1), snd (run calls st1)).
Proof.
  unfold run at 1. cbn [fold_left]. unfold run_call at 2. cbn [fst snd].
  destruct (check _ _ _ _ st) as [b st1]. by rewrite run_call_fold.
Qed.

(** ** The cap on the tokens *)

Lemma check_capped (C : Z) key now identifier operation max_per_second st :
  (key_of identifier operation = key -> max_per_second = C) ->
  capped C key st ->
  capped C key (snd (check now identifier operation max_per_second st)).
Proof.
  intros Hmax Hcap.
  assert (capped C key (periodic_cleanup now st)) as Hcap1.
  { intros t. unfold tokens_of.
    destruct (cleanup_due_buckets now st key) as [->|[-> _]]; [done|apply Hcap]. }
  rewrite check_unfold. cbv zeta. revert Hcap1. generalize (periodic_cleanup now st) as st1.
  intros st1 Hcap1. unfold capped, tokens_of in *.
  destruct (decide (key_of identifier operation = key)) as [Hk|Hk].
  - rewrite Hk, (Hmax Hk).
    destruct (_buckets st1 !! key) as [[tokens last_refill]|] eqn:E.
    + destruct (Qle_bool 1 _); cbn [snd _buckets].
      * rewrite lookup_insert_eq. intros t [= <-].
        pose proof (py_min_le_l (inject_Z C)
                      (tokens + (now - last_refill) * inject_Z C)%Q). lra.
      * rewrite E. apply Hcap1.
    + cbn [snd _buckets]. rewrite lookup_insert_eq. intros t [= <-]. lra.
  - destruct (_buckets st1 !! key_of identifier operation)
      as [[tokens last_refill]|].
    + destruct (Qle_bool 1 _); cbn [snd _buckets]; [|done].
      by rewrite lookup_insert_ne.
    + cbn [snd _buckets]. by rewrite lookup_insert_ne.
Qed.


(** ** Calls without elapsed time *)

Lemma check_consumes now identifier operation (N r : Z) st :
  holds_tokens now (key_of identifier operation) r st ->
  1 <= r <= N ->
  exists st',
    check now identifier operation N st = (true, st')
    /\ holds_tokens now (key_of identifier operation) (r - 1) st'.
Proof.
  intros [Hsw (t & Hb & Ht)] Hr. rewrite check_unfold, (cleanup_due_id _ _ Hsw).
  cbv zeta. rewrite Hb.
  set (tokens := py_min _ _).
  assert (tokens == inject_Z r)%Q as Htok.
  { subst tokens. unfold py_min.
    assert (inject_Z r <= inject_Z N)%Q by (rewrite <- Zle_Qle; lia).
    assert ((now - now) * inject_Z N == 0)%Q as H0 by ring.
    destruct (Qltb (t + _) _) eqn:E; [lra|].
    apply Qltb_false in E. lra. }
  assert (Qle_bool 1 tokens = true) as ->.
  { apply Qle_bool_iff. rewrite Htok. change 1%Q with (inject_Z 1).
    rewrite <- Zle_Qle. lia. }
  eexists. split; [done|]. split; [done|]. cbn [_buckets].
  rewrite lookup_insert_eq. eexists. split; [done|].
  pose proof (inject_Z_pred r). lra.
Qed.

Lemma check_rejects now identifier operation (N : Z) st :
  holds_tokens now (key_of identifier operation) 0 st ->
  check now identifier operation N st = (false, st).
Proof.
  intros [Hsw (t & Hb & Ht)]. rewrite check_unfold, (cleanup_due_id _ _ Hsw).
  cbv zeta. rewrite Hb.
  set (tokens := py_min _ _).
  assert (tokens <= 0)%Q as Htok.
  { subst tokens. unfold py_min.
    assert ((now - now) * inject_Z N == 0)%Q as H0 by ring.
    change (inject_Z 0) with 0%Q in Ht.
    destruct (Qltb (t + _) _) eqn:E; [lra|].
    apply Qltb_false in E. lra. }
  destruct (Qle_bool 1 tokens) eqn:E; [|done].
  apply Qle_bool_iff in E. lra.
Qed.

Lemma check_creates now identifier operation (N : Z) st :
  _buckets st !! key_of identifier operation = None ->
  exists st',
    check now identifier operation N st = (true, st')
    /\ holds_tokens now (key_of identifier operation) N st'.
Proof.
  intros Hfresh. rewrite check_unfold. cbv zeta.
  rewrite (cleanup_due_fresh now st _ Hfresh).
  eexists. split; [done|]. split; [apply cleanup_due_settled|].
  cbn [_buckets]. rewrite lookup_insert_eq. eexists. split; [done|]. lra.
Qed.

Lemma run_consuming now identifier operation (N : Z) (k : nat) st :
  holds_tokens now (key_of identifier operation) (Z.of_nat k) st ->
  Z.of_nat k <= N ->
  fst (run (repeat (mkCall now identifier operation N) (k + 1)) st)
  = repeat true k ++ [false].
Proof.
  revert st. induction k as [|k IH]; intros st Hst Hk.
  - cbn [repeat Nat.add]. rewrite run_cons. cbn [call_now call_identifier
      call_operation call_max]. by rewrite (check_rejects _ _ _ _ _ Hst).
  - cbn [repeat Nat.add]. rewrite run_cons. cbn [call_now call_identifier
      call_operation call_max].
    destruct (check_consumes now identifier operation N (Z.of_nat (S k)) st)
      as (st' & -> & Hst'); [done|lia|].
    cbn [fst app]. f_equal. apply IH; [|lia].
    by replace (Z.of_nat k) with (Z.of_nat (S k) - 1) by lia.
Qed.


End RateLimiterProofs.

Import RateLimiter.




(** The witness of C7: the fifth call of the sequence above is rejected. *)
Lemma check_rejected_witness :
  let rejected := check 5 (u "t") (u "f") 3 after_four_calls in
  fst rejected = false
  /\ (_buckets (snd rejected) !! key_of (u "t") (u "f")
        = _buckets after_four_calls !! key_of (u "t") (u "f")
      /\ _call_counts (snd rejected) !! key_of (u "t") (u "f")
        = _call_counts after_four_calls !! key_of (u "t") (u "f")
      /\ get_call_count (u "t") (u "f") (snd rejected)
        = get_call_count (u "t") (u "f") after_four_calls).
Proof.
  split; [vm_compute; reflexivity|].
  apply (check_rejected_keeps_key 5 (u "t") (u "f") 3 after_four_calls).
  vm_compute. reflexivity.
Defined.

(** * The command router *)

Section Router.
Import ApiBridge.
Variable isdecimal : Z -> bool.
Variable json_loads : pystr -> result PyValue.
Variable sha256_hexdigest : pystr -> pystr.
Implicit Types (registry : gmap pystr PyCallable) (w : World).

Abbreviation send := (_send_callback isdecimal).
Abbreviation handle := (handle_pycmd isdecimal json_loads sha256_hexdigest).
Abbreviation body := (try_body isdecimal json_loads).
Abbreviation route := (dispatch isdecimal json_loads sha256_hexdigest).
Abbreviation template_id := (template_id_of sha256_hexdigest).
Abbreviation delivered := (delivery isdecimal).
Abbreviation callback_id_ok :=
  (re_match (InputValidator._CALLBACK_ID_PATTERN isdecimal)).

(** ** Serialization *)

Lemma join_dumps_raises {A} (dump_item : A -> result pystr) (Q : PyExc -> Prop)
    first l e :
  Forall (fun x => forall e', dump_item x = Raise e' -> Q e') l ->
  join_dumps dump_item first l = Raise e -> Q e.
Proof.
  intros HF. revert first. induction HF as [|x l Hx _ IH]; intros first; [done|].
  simpl. destruct (dump_item x) eqn:Ex; simpl; [|intros [= <-]; by apply Hx].
  destruct (join_dumps dump_item false l) eqn:El; simpl; [done|].
  intros [= <-]. by apply (IH false).
Qed.

(** What [json.dumps] rejects, it rejects with a [TypeError]. *)
Lemma json_dumps_raises_TypeError v e :
  json_dumps v = Raise e -> exc_type e = "TypeError"%string.
Proof.
  revert e. induction v as [| [] | | | items IH | entries IH | t]
    using PyValue_nested_ind; intros e; simpl; try done.
  - destruct (join_dumps json_dumps true items) eqn:E; simpl; [done|].
    intros [= <-]. revert E.
    by apply (join_dumps_raises _ (fun e => exc_type e = "TypeError"%string)).
  - destruct (join_dumps _ true entries) eqn:E; simpl; [done|].
    intros [= <-]. revert E.
    apply (join_dumps_raises _ (fun e => exc_type e = "TypeError"%string)).
    eapply Forall_impl; [exact IH|]. intros [key x] Hx e'. simpl in *.
    destruct (json_dumps x) eqn:Ex; simpl; [done|]. intros [= <-]. by apply Hx.
  - by intros [= <-].
Qed.

Lemma json_dumps_error_response msg :
  json_dumps (error_response msg) = Ok (error_json msg).
Proof. unfold error_json. simpl. rewrite app_nil_r. reflexivity. Qed.

Lemma json_dumps_success_response v e :
  json_dumps v = Raise e -> json_dumps (success_response v) = Raise e.
Proof. intros H. simpl. by rewrite H. Qed.

(** ** Sending a response *)

Lemma send_callback_refused reviewer callback_id response w :
  callback_id_ok callback_id = None ->
  send reviewer callback_id response w = (Ok tt, w).
Proof. intros H. unfold _send_callback. by rewrite H. Qed.

Lemma send_callback_json reviewer callback_id response json w :
  json_dumps response = Ok json ->
  send reviewer callback_id response w
  = (Ok tt, mkWorld (limiter w)
              (evals w ++ delivered reviewer callback_id json)).
Proof.
  intros H. unfold _send_callback, delivery.
  destruct w as [st ev].
  destruct (callback_id_ok callback_id); [|by rewrite app_nil_r].
  unfold bind, lift. rewrite H.
  destruct reviewer as [[crd []]|]; cbn; by rewrite ?app_nil_r.
Qed.

Lemma send_callback_error reviewer callback_id msg w :
  send reviewer callback_id (error_response msg) w
  = (Ok tt, mkWorld (limiter w)
              (evals w ++ delivered reviewer callback_id (error_json msg))).
Proof. apply send_callback_json, json_dumps_error_response. Qed.

(** Sending a response that [json.dumps] rejects raises before anything
    is handed to the web view, when the callback id is accepted. *)
Lemma send_callback_raises reviewer callback_id response e w c :
  callback_id_ok callback_id = Some c ->
  json_dumps response = Raise e ->
  send reviewer callback_id response w = (Raise e, w).
Proof.
  intros Hc H. unfold _send_callback. rewrite Hc. unfold bind, lift.
  by rewrite H.
Qed.

(** ** The steps of [handle_pycmd] *)

Lemma handle_pycmd_dispatch registry now reviewer cmd :
  startswith cmd (u "ankidroidjs:") = true ->
  (3 <= length (split 58 3 cmd))%nat ->
  handle registry now reviewer cmd
  = route registry now reviewer
      (nth 1 (split 58 3 cmd) []) (nth 2 (split 58 3 cmd) [])
      (if (3 <? length (split 58 3 cmd))%nat then nth 3 (split 58 3 cmd) []
       else u "{}").
Proof.
  intros Hp Hl. unfold handle_pycmd. rewrite Hp. cbn [negb].
  destruct (Nat.ltb_spec (length (split 58 3 cmd)) 3); [lia|].
  reflexivity.
Qed.

Lemma handle_pycmd_four_parts registry now reviewer cmd p0 callback_id
    function_name args_json :
  startswith cmd (u "ankidroidjs:") = true ->
  split 58 3 cmd = [p0; callback_id; function_name; args_json] ->
  handle registry now reviewer cmd
  = route registry now reviewer callback_id function_name args_json.
Proof.
  intros Hp Hs. rewrite handle_pycmd_dispatch by (rewrite ?Hs; simpl; done || lia).
  by rewrite Hs.
Qed.

(** The router when the rate check admits the call. *)
Lemma dispatch_admitted registry now reviewer callback_id function_name
    args_json w st' :
  RateLimiter.check now (template_id reviewer) function_name
    DEFAULT_API_RATE_LIMIT_PER_SECOND (limiter w) = (true, st') ->
  route registry now reviewer callback_id function_name args_json w
  = match registry !! function_name with
    | None =>
        send reviewer callback_id
          (error_response (u "Unknown API function: " ++ function_name))
          (mkWorld st' (evals w))
    | Some func =>
        try_except (body reviewer callback_id func args_json)
          (fun e =>
             send reviewer callback_id
               (error_response (u "Operation failed: " ++ u (exc_type e))))
          (mkWorld st' (evals w))
    end.
Proof.
  intros Hc. unfold dispatch, bind at 1, rate_check. rewrite Hc. cbn [negb].
  by destruct (registry !! function_name).
Qed.

(** The [try] statement when its body raises [e] without a change. *)
Lemma try_body_raises reviewer callback_id func args_json e w :
  body reviewer callback_id func args_json w = (Raise e, w) ->
  try_except (body reviewer callback_id func args_json)
    (fun e =>
       send reviewer callback_id
         (error_response (u "Operation failed: " ++ u (exc_type e)))) w
  = (Ok tt, mkWorld (limiter w)
              (evals w ++ delivered reviewer callback_id
                 (error_json (u "Operation failed: " ++ u (exc_type e))))).
Proof.
  intros H. unfold try_except. rewrite H. apply send_callback_error.
Qed.

(** With a callback id that is refused, the [try] statement hands nothing
    to the web view and does not raise. *)
Lemma try_refused reviewer callback_id func args_json w :
  callback_id_ok callback_id = None ->
  try_except (body reviewer callback_id func args_json)
    (fun e =>
       send reviewer callback_id
         (error_response (u "Operation failed: " ++ u (exc_type e)))) w
  = (Ok tt, w).
Proof.
  intros Hcb. unfold try_except, try_body, bind, lift, raise, ret.
  destruct (MAX_JSON_PAYLOAD_BYTES <? len args_json);
    [exact (send_callback_refused _ _ _ _ Hcb)|].
  destruct (parse_args json_loads args_json) as [args|e];
    [|exact (send_callback_refused _ _ _ _ Hcb)].
  destruct (call_with func args) as [v|e];
    by rewrite (send_callback_refused _ _ _ _ Hcb).
Qed.

Lemma dispatch_refused registry now reviewer callback_id function_name
    args_json w :
  callback_id_ok callback_id = None ->
  exists st,
    route registry now reviewer callback_id function_name args_json w
    = (Ok tt, mkWorld st (evals w)).
Proof.
  intros Hcb. unfold dispatch, bind, rate_check.
  destruct (RateLimiter.check _ _ _ _ _) as [[] st]; cbn [negb]; exists st.
  - destruct (registry !! _).
    + by rewrite try_refused.
    + by rewrite send_callback_refused.
  - by rewrite send_callback_refused.
Qed.

(** The router when the registered function raises. *)
Lemma operation_raises registry now reviewer cmd p0 callback_id function_name
    args_json func args e w st' :
  startswith cmd (u "ankidroidjs:") = true ->
  split 58 3 cmd = [p0; callback_id; function_name; args_json] ->
  RateLimiter.check now (template_id reviewer) function_name
    DEFAULT_API_RATE_LIMIT_PER_SECOND (limiter w) = (true, st') ->
  registry !! function_name = Some func ->
  len args_json <= MAX_JSON_PAYLOAD_BYTES ->
  parse_args json_loads args_json = Ok args ->
  call_with func args = Raise e ->
  handle registry now reviewer cmd w
  = (Ok tt,
     mkWorld st'
       (evals w ++ delivered reviewer callback_id
          (error_json (u "Operation failed: " ++ u (exc_type e))))).
Proof.
  intros Hp Hs Hc Hreg Hlen Hargs Hcall.
  rewrite (handle_pycmd_four_parts _ _ _ _ _ _ _ _ Hp Hs).
  rewrite (dispatch_admitted _ _ _ _ _ _ _ _ Hc), Hreg.
  rewrite (try_body_raises _ _ _ _ e); [done|].
  unfold try_body, bind, lift.
  destruct (Z.ltb_spec MAX_JSON_PAYLOAD_BYTES (len args_json)); [lia|].
  unfold ret. by rewrite Hargs, Hcall.
Qed.

(** ** The claims about the router *)



(** The parts of a command that has the prefix: the prefix without its
    colon, then the parts of what follows it. *)
Lemma split_after_prefix rest :
  split 58 3 (u "ankidroidjs:" ++ rest) = u "ankidroidjs" :: split 58 2 rest.
Proof. reflexivity. Qed.

(** C6: a protocol failure never reaches the callback. For a command
    without the prefix [ankidroidjs:], or with fewer than two parts after
    the prefix, or whose callback id does not match the callback id
    pattern, the router hands nothing to the web view (and does not
    raise). *)
Theorem protocol_failure_delivers_nothing registry now reviewer cmd w :
  startswith cmd (u "ankidroidjs:") = false
  \/ (length (split 58 3 cmd) < 3)%nat
  \/ callback_id_ok (nth 1 (split 58 3 cmd) []) = None ->
  fst (handle registry now reviewer cmd w) = Ok tt
  /\ evals (snd (handle registry now reviewer cmd w)) = evals w.
Proof.
  intros H.
  destruct (startswith cmd (u "ankidroidjs:")) eqn:Hp;
    [|unfold handle_pycmd; by rewrite Hp].
  destruct (Nat.ltb_spec (length (split 58 3 cmd)) 3) as [Hl|Hl].
  { unfold handle_pycmd. rewrite Hp. cbn [negb].
    destruct (Nat.ltb_spec (length (split 58 3 cmd)) 3); [done|lia]. }
  destruct H as [H|[H|Hcb]]; [done|lia|].
  rewrite (handle_pycmd_dispatch registry now reviewer cmd Hp Hl).
  destruct (dispatch_refused registry now reviewer _ (nth 2 (split 58 3 cmd) [])
              (if (3 <? length (split 58 3 cmd))%nat
               then nth 3 (split 58 3 cmd) [] else u "{}") w Hcb) as [st ->].
  done.
Qed.


End Router.

(** ** Closed examples of the router *)

Import ApiBridge.




(** The witness of C6: a callback id that is not a number. *)
Lemma protocol_failure_witness :
  fst (handle_closed {[ u "f" := returns PyNone ]} 0 web_reviewer
         (u "ankidroidjs:x2:f:{}") fresh_world) = Ok tt
  /\ evals (snd (handle_closed {[ u "f" := returns PyNone ]} 0 web_reviewer
                   (u "ankidroidjs:x2:f:{}") fresh_world)) = [].
Proof.
  unfold handle_closed.
  apply (protocol_failure_delivers_nothing InputValidator.ascii_isdecimal
           loads_empty_object no_card_digest {[ u "f" := returns PyNone ]}
           0 web_reviewer (u "ankidroidjs:x2:f:{}") fresh_world).
  right. right. vm_compute. reflexivity.
Defined.


(** * More of the validators *)

Section MatcherSound.
Context {R : Type}.
Implicit Types (k : cursor -> option R) (g : list pystr).

(** What a greedy run that succeeds has taken: a run of the class, after
    which the continuation succeeds. *)
Lemma star_sound p g k n s x :
  star p g k n s = Some x ->
  exists w s', s = w ++ s' /\ forallb p w = true
    /\ k (mkCursor (n + length w) s' g) = Some x.
Proof.
  revert n. induction s as [|c s IH]; intros n; simpl.
  - intros H. exists [], []. by rewrite Nat.add_0_r.
  - assert (Hstop : k (mkCursor n (c :: s) g) = Some x ->
            exists w s', c :: s = w ++ s' /\ forallb p w = true
              /\ k (mkCursor (n + length w) s' g) = Some x).
    { intros H. exists [], (c :: s). by rewrite Nat.add_0_r. }
    destruct (p c) eqn:Hc; [|done].
    destruct (star p g k (S n) s) as [y|] eqn:Hs; [|done].
    intros [= ->]. destruct (IH _ Hs) as (w & s' & -> & Hw & Hk).
    exists (c :: w), s'. simpl. rewrite Hc, Hw.
    by rewrite Nat.add_succ_r.
Qed.

Lemma plus_sound p (c : cursor) k x :
  exec (Plus p) c k = Some x ->
  exists w s', rest c = w ++ s' /\ w <> [] /\ forallb p w = true
    /\ k (mkCursor (pos c + length w) s' (groups c)) = Some x.
Proof.
  simpl. destruct (rest c) as [|a s]; [done|].
  destruct (p a) eqn:Ha; [|done].
  intros (w & s' & -> & Hw & Hk)%star_sound.
  exists (a :: w), s'. simpl. rewrite Ha, Hw. repeat split; [done|].
  by rewrite Nat.add_succ_r.
Qed.

Lemma plus_run p n w s g k x :
  w <> [] -> forallb p w = true ->
  match s with [] => True | c :: _ => p c = false end ->
  k (mkCursor (n + length w) s g) = Some x ->
  exec (Plus p) (mkCursor n (w ++ s) g) k = Some x.
Proof.
  destruct w as [|a w]; [done|]. intros _. simpl.
  intros [-> Hw]%andb_true_iff Hs Hk.
  apply star_run; [done..|]. by rewrite Nat.add_succ_l, <- Nat.add_succ_r.
Qed.

Lemma eol_sound (c : cursor) k x :
  exec Eol c k = Some x -> (rest c = [] \/ rest c = [10]) /\ k c = Some x.
Proof.
  simpl. destruct (rest c) as [|a [|b s]]; [auto| |done].
  destruct (Z.eqb_spec a 10) as [->|]; [auto|done].
Qed.

End MatcherSound.

Section MoreStrip.
Implicit Types s t : pystr.

Lemma lstrip_head s c t : lstrip s = c :: t -> isspace c = false.
Proof.
  induction s as [|x s IH]; simpl; [done|].
  destruct (isspace x) eqn:E; [done|]. by intros [= <- _].
Qed.

Lemma rstrip_last s t c : rstrip s = t ++ [c] -> isspace c = false.
Proof.
  unfold rstrip. intros H. apply (f_equal (@rev Z)) in H.
  rewrite rev_involutive, rev_app_distr in H. simpl in H.
  by apply lstrip_head in H.
Qed.

Lemma strip_head s c t : strip s = c :: t -> isspace c = false.
Proof.
  intros H. pose proof (lstrip_rstrip_lstrip s) as Hl.
  fold (strip s) in Hl. rewrite H in Hl. by apply lstrip_head in Hl.
Qed.

Lemma strip_last s t c : strip s = t ++ [c] -> isspace c = false.
Proof. apply rstrip_last. Qed.

Lemma lstrip_id c s : isspace c = false -> lstrip (c :: s) = c :: s.
Proof. intros H. simpl. by rewrite H. Qed.

Lemma rstrip_id s c : isspace c = false -> rstrip (s ++ [c]) = s ++ [c].
Proof.
  intros H. unfold rstrip. rewrite rev_app_distr. simpl. rewrite H.
  simpl. by rewrite rev_involutive.
Qed.

(** A text whose first and last characters are not whitespace is what
    [strip] returns for it. *)
Lemma strip_id s :
  (forall c t, s = c :: t -> isspace c = false) ->
  (forall t c, s = t ++ [c] -> isspace c = false) ->
  strip s = s.
Proof.
  intros Hh Hl. unfold strip. destruct s as [|c s]; [done|].
  rewrite lstrip_id by eauto.
  destruct (exists_last (l := c :: s)) as (t & x & E); [done|].
  rewrite E. apply rstrip_id. eauto.
Qed.

(** [s.replace(a, b)] for two characters. *)
Lemma replace_char s a b :
  replace s [a] [b] = List.map (fun c => if c =? a then b else c) s.
Proof.
  unfold replace. induction s as [|c s IH]; [done|].
  cbn [replace_from startswith length Nat.sub List.map].
  rewrite andb_true_r. destruct (c =? a); simpl; by rewrite IH.
Qed.

End MoreStrip.

Section TagValidation.
Import InputValidator.
Variable isalnum : Z -> bool.
Implicit Types s t tag : pystr.

(** Replacing spaces keeps the ends of a stripped text free of whitespace. *)
Lemma underscored_head s c t :
  (forall c t, s = c :: t -> isspace c = false) ->
  replace s (u " ") (u "_") = c :: t -> isspace c = false.
Proof.
  intros Hs. change (u " ") with [32]. change (u "_") with [95].
  rewrite replace_char. destruct s as [|x s]; [done|]. simpl.
  intros [= <- _]. specialize (Hs x s eq_refl).
  destruct (Z.eqb_spec x 32) as [->|]; done.
Qed.

Lemma underscored_last s t c :
  (forall t c, s = t ++ [c] -> isspace c = false) ->
  replace s (u " ") (u "_") = t ++ [c] -> isspace c = false.
Proof.
  intros Hs. change (u " ") with [32]. change (u "_") with [95].
  rewrite replace_char.
  intros H. destruct (exists_last (l := s)) as (s0 & x & ->).
  { intros ->. by destruct t. }
  revert H. rewrite map_app. simpl. intros [_ <-]%app_inj_tail.
  specialize (Hs s0 x eq_refl). destruct (Z.eqb_spec x 32) as [->|]; done.
Qed.

Lemma underscored_no_space s :
  char_in 32 (replace s (u " ") (u "_")) = false.
Proof.
  change (u " ") with [32]. change (u "_") with [95]. rewrite replace_char.
  unfold char_in. induction s as [|c s IH]; [done|].
  cbn [List.map existsb]. rewrite IH, orb_false_r.
  destruct (Z.eqb_spec c 32) as [->|Hc]; [done|]. apply Z.eqb_neq. congruence.
Qed.

Lemma underscored_id s :
  char_in 32 s = false -> replace s (u " ") (u "_") = s.
Proof.
  change (u " ") with [32]. change (u "_") with [95]. rewrite replace_char.
  unfold char_in. induction s as [|c s IH]; [done|].
  cbn [List.map existsb].
  intros [Hc Hs]%orb_false_iff. rewrite IH by done.
  rewrite Z.eqb_sym, Hc. done.
Qed.

Lemma underscored_length s : length (replace s (u " ") (u "_")) = length s.
Proof.
  change (u " ") with [32]. change (u "_") with [95]. rewrite replace_char.
  apply length_map.
Qed.

(** The tag pattern on a text that does not end with whitespace: the
    newline that [$] tolerates cannot be there. *)
Lemma tag_pattern_match s :
  (forall t c, s = t ++ [c] -> isspace c = false) ->
  is_Some (re_match (_TAG_PATTERN isalnum) s)
  <-> s <> [] /\ forallb (word_or_hyphen isalnum) s = true.
Proof.
  intros Hlast. unfold re_match, _TAG_PATTERN.
  cbn [exec pos]. split.
  - intros [x (w & s' & E & Hne & Hw & Hk)%plus_sound].
    cbn [rest pos groups] in *.
    apply (eol_sound (mkCursor (0 + length w) s' []) Some) in Hk
      as [[Hs'|Hs'] _]; cbn [rest] in Hs'; subst s'.
    + rewrite app_nil_r in E. by subst.
    + by specialize (Hlast _ _ E).
  - intros [Hne Hall]. destruct s as [|a s]; [done|].
    simpl in Hall. apply andb_true_iff in Hall as [Ha Hs].
    cbn [exec rest pos groups]. rewrite Ha.
    rewrite (star_eol_all _ _ _ _ Hs). done.
Qed.

Lemma validate_tag_ok tag max_length r :
  validate_tag isalnum tag max_length = Ok r
  <-> len (strip tag) <= max_length
      /\ strip tag <> []
      /\ forallb (word_or_hyphen isalnum)
           (replace (strip tag) (u " ") (u "_")) = true
      /\ r = replace (strip tag) (u " ") (u "_").
Proof.
  unfold validate_tag.
  destruct (Z.ltb_spec max_length (len (strip tag))) as [Hlen|Hlen].
  { split; [done|]. intros (? & _). lia. }
  destruct (strip tag) as [|c t] eqn:Es.
  { split; [done|]. by intros (_ & ? & _). }
  rewrite <- Es in *.
  assert (Hlast : forall t' x,
            replace (strip tag) (u " ") (u "_") = t' ++ [x] -> isspace x = false).
  { intros t' x. apply underscored_last. intros ? ?. apply strip_last. }
  pose proof (tag_pattern_match _ Hlast) as Hm.
  assert (Hne : replace (strip tag) (u " ") (u "_") <> []).
  { intros E%(f_equal (@length Z)). rewrite underscored_length, Es in E. done. }
  destruct (re_match _ _) as [x|].
  - destruct (proj1 Hm) as [_ Hall]; [done|]. split.
    + intros [= <-]. rewrite Es at 2. done.
    + by intros (_ & _ & _ & ->).
  - split; [done|]. intros (_ & _ & Hall & _).
    destruct (proj2 Hm) as [? ?]; done.
Qed.

(** X1: [validate_tag] accepts a tag exactly when its stripped form is no
    longer than [max_length], is not empty and, once its spaces are
    underscores, consists of word characters and hyphens; what it returns
    is that form. Every other tag is rejected with a [ValueError]. *)
Theorem validate_tag_accepts_exactly tag max_length :
  (forall r,
     validate_tag isalnum tag max_length = Ok r
     <-> len (strip tag) <= max_length
         /\ strip tag <> []
         /\ forallb (word_or_hyphen isalnum)
              (replace (strip tag) (u " ") (u "_")) = true
         /\ r = replace (strip tag) (u " ") (u "_"))
  /\ (forall e,
        validate_tag isalnum tag max_length = Raise e ->
        exc_type e = "ValueError"%string).
Proof.
  split; [intros r; apply validate_tag_ok|].
  intros e. unfold validate_tag.
  destruct (max_length <? len (strip tag)); [by intros [= <-]|].
  destruct (strip tag) as [|c t]; [by intros [= <-]|].
  destruct (re_match _ _); [done|]. by intros [= <-].
Qed.

(** X2: a validated tag is not empty, no longer than [max_length], made of
    word characters and hyphens, has no space and no whitespace at its
    ends, and validating it again returns it unchanged. *)
Theorem validated_tag_is_clean tag max_length r :
  validate_tag isalnum tag max_length = Ok r ->
  r <> [] /\ len r <= max_length
  /\ forallb (word_or_hyphen isalnum) r = true
  /\ char_in 32 r = false
  /\ strip r = r
  /\ validate_tag isalnum r max_length = Ok r.
Proof.
  intros (Hlen & Hne & Hall & ->)%validate_tag_ok.
  set (r := replace (strip tag) (u " ") (u "_")) in *.
  assert (Hr : r <> []).
  { intros E%(f_equal (@length Z)). unfold r in E.
    rewrite underscored_length in E. by destruct (strip tag). }
  assert (Hl : len r = len (strip tag)).
  { unfold len, r. by rewrite underscored_length. }
  assert (Hsp : char_in 32 r = false) by apply underscored_no_space.
  assert (Hst : strip r = r).
  { apply strip_id.
    - intros c t. apply underscored_head. intros ? ?. apply strip_head.
    - intros t c. apply underscored_last. intros ? ?. apply strip_last. }
  repeat split; [done|lia|done..|].
  apply validate_tag_ok. rewrite Hst, (underscored_id r Hsp).
  repeat split; [lia|done..].
Qed.

End TagValidation.

Section FilenameValidation.
Import InputValidator.
Variable isalnum : Z -> bool.
Implicit Types s f : pystr.

Lemma filename_pattern_sound f :
  is_Some (re_match (_FILENAME_PATTERN isalnum) f) -> stem_dot_ext isalnum f.
Proof.
  unfold re_match, _FILENAME_PATTERN. cbn [exec pos].
  intros [x (stem & s1 & E & Hne & Hstem & Hk)%plus_sound].
  cbn [rest pos groups] in *. subst f.
  destruct s1 as [|d s1]; [done|].
  destruct (Z.eqb_spec d 46) as [->|]; [|done].
  change (exec (Plus (is_word isalnum))
            (mkCursor (S (0 + length stem)) s1 [])
            (fun c' => exec Eol c' Some) = Some x) in Hk.
  apply plus_sound in Hk as (ext & nl & E & Hne' & Hext & Hk).
  cbn [rest pos groups] in *. subst s1.
  apply (eol_sound (mkCursor _ nl []) Some) in Hk as [Hnl _].
  cbn [rest] in Hnl. by exists stem, ext, nl.
Qed.

Lemma filename_pattern_complete f :
  isalnum 46 = false -> isalnum 10 = false ->
  stem_dot_ext isalnum f -> is_Some (re_match (_FILENAME_PATTERN isalnum) f).
Proof.
  intros Hdot Hnl (stem & ext & nl & -> & Hne & Hne' & Hstem & Hext & Hend).
  unfold re_match, _FILENAME_PATTERN. cbn [exec pos].
  exists (mkCursor (0 + length stem + 1 + length ext) nl []).
  apply plus_run; [done|done| |].
  { unfold word_or_hyphen, is_word. by rewrite Hdot. }
  cbn [rest pos groups].
  change (exec (Plus (is_word isalnum))
            (mkCursor (S (0 + length stem)) (ext ++ nl) [])
            (fun c' => exec Eol c' Some)
          = Some (mkCursor (0 + length stem + 1 + length ext) nl [])).
  apply plus_run; [done|done| |].
  { destruct Hend as [->| ->]; [done|]. unfold is_word. by rewrite Hnl. }
  replace (S (0 + length stem) + length ext)%nat
    with (0 + length stem + 1 + length ext)%nat by lia.
  by destruct Hend as [->| ->].
Qed.

Lemma contains_absent s a m :
  forallb (fun x => negb (x =? a)) s = true -> contains s (a :: m) = false.
Proof.
  induction s as [|x s IH]; [done|].
  cbn [forallb contains startswith].
  intros [Hx Hs]%andb_true_iff. apply negb_true_iff in Hx.
  by rewrite Hx, IH.
Qed.

Lemma contains_doubled s t a :
  forallb (fun x => negb (x =? a)) s = true ->
  forallb (fun x => negb (x =? a)) t = true ->
  contains (s ++ a :: t) [a; a] = false.
Proof.
  intros Hs Ht. induction s as [|x s IH].
  - cbn [app contains startswith]. rewrite (contains_absent _ _ _ Ht).
    rewrite Z.eqb_refl. destruct t as [|y t]; [done|].
    cbn [forallb] in Ht. apply andb_true_iff in Ht as [Hy%negb_true_iff _].
    by rewrite Hy.
  - cbn [forallb] in Hs. apply andb_true_iff in Hs as [Hx%negb_true_iff Hs].
    cbn [app contains startswith]. by rewrite Hx, IH.
Qed.

Lemma forallb_weaken (P Q : Z -> bool) s :
  (forall c, P c = true -> Q c = true) ->
  forallb P s = true -> forallb Q s = true.
Proof.
  intros HPQ. induction s as [|c s IH]; [done|]. simpl.
  intros [Hc Hs]%andb_true_iff. by rewrite (HPQ _ Hc), IH.
Qed.

(** None of the characters of an accepted name is [a], when [a] is neither
    a word character, nor the hyphen, nor the newline. *)
Lemma name_parts_absent stem ext nl a :
  isalnum a = false -> a <> 95 -> a <> 45 -> a <> 10 ->
  forallb (word_or_hyphen isalnum) stem = true ->
  forallb (is_word isalnum) ext = true ->
  nl = [] \/ nl = [10] ->
  forallb (fun x => negb (x =? a)) stem = true
  /\ forallb (fun x => negb (x =? a)) (ext ++ nl) = true.
Proof.
  intros Ha H95 H45 H10 Hstem Hext Hend.
  assert (Hw : forall c, is_word isalnum c = true -> negb (c =? a) = true).
  { intros c Hc. apply negb_true_iff, Z.eqb_neq. intros ->.
    unfold is_word in Hc. rewrite Ha in Hc. cbn [orb] in Hc.
    by apply Z.eqb_eq in Hc. }
  split.
  - eapply forallb_weaken; [|exact Hstem]. intros c.
    unfold word_or_hyphen. intros [Hc|Hc]%orb_true_iff; [by apply Hw|].
    apply Z.eqb_eq in Hc as ->. by apply negb_true_iff, Z.eqb_neq.
  - rewrite forallb_app. rewrite (forallb_weaken _ _ _ Hw Hext).
    destruct Hend as [->| ->]; [done|]. cbn [forallb andb].
    rewrite andb_true_r. apply negb_true_iff, Z.eqb_neq. congruence.
Qed.

Lemma accepted_name_no_traversal f :
  isalnum 46 = false -> isalnum 47 = false -> isalnum 92 = false ->
  stem_dot_ext isalnum f ->
  contains f (u "..") || contains f (u "/") || contains f [92] = false.
Proof.
  intros Hdot Hslash Hbs (stem & ext & nl & -> & _ & _ & Hstem & Hext & Hend).
  destruct (name_parts_absent stem ext nl 46) as [H1 H2]; [done..|].
  destruct (name_parts_absent stem ext nl 47) as [H3 H4]; [done..|].
  destruct (name_parts_absent stem ext nl 92) as [H5 H6]; [done..|].
  change (u "..") with [46; 46]. change (u "/") with [47].
  rewrite (contains_doubled _ _ _ H1 H2).
  rewrite !contains_absent; [done| |].
  - rewrite forallb_app, H5. cbn [forallb]. by rewrite H6.
  - rewrite forallb_app, H3. cbn [forallb]. by rewrite H4.
Qed.

(** X3: a file name that contains two dots in a row, a slash or a
    backslash is rejected with a [ValueError], whatever the Unicode tables
    say about its characters: by the pattern or, when the pattern lets it
    pass, by the explicit check. *)
Theorem validate_filename_rejects_separators f :
  contains f (u "..") = true \/ contains f (u "/") = true
    \/ contains f [92] = true ->
  exists msg, validate_filename isalnum f = Raise (ValueError msg).
Proof.
  intros H. unfold validate_filename.
  destruct (re_match _ f); [|by eexists].
  assert (contains f (u "..") || contains f (u "/") || contains f [92] = true)
    as ->; [|by eexists].
  destruct H as [->|[->| ->]]; by rewrite ?orb_true_r.
Qed.

(** X4: when the dot, the slash, the backslash and the newline are not
    alphanumeric (as in the Unicode database), [validate_filename] accepts
    exactly the names [stem.ext], a stem of word characters and hyphens and
    an extension of word characters, neither of them empty, possibly
    followed by one newline, which [$] tolerates. It returns them
    unchanged. Every other name is rejected as [Invalid filename]: the
    explicit path traversal check never fires. *)
Theorem validate_filename_accepts_exactly f :
  isalnum 46 = false -> isalnum 47 = false -> isalnum 92 = false ->
  isalnum 10 = false ->
  (stem_dot_ext isalnum f -> validate_filename isalnum f = Ok f)
  /\ (~ stem_dot_ext isalnum f ->
      validate_filename isalnum f
      = Raise (ValueError (u "Invalid filename: " ++ f))).
Proof.
  intros Hdot Hslash Hbs Hnl. unfold validate_filename. split.
  - intros Hf.
    destruct (filename_pattern_complete f Hdot Hnl Hf) as [c ->].
    by rewrite accepted_name_no_traversal.
  - intros Hf. destruct (re_match _ f) as [c|] eqn:E; [|done].
    destruct Hf. apply filename_pattern_sound. by rewrite E.
Qed.

End FilenameValidation.

Import InputValidator.

(** The witness of X3: a name that climbs out of the directory. *)
Lemma validate_filename_rejects_witness :
  exists msg,
    validate_filename ascii_isalnum (u "../secret.js") = Raise (ValueError msg).
Proof.
  apply (validate_filename_rejects_separators ascii_isalnum (u "../secret.js")).
  left. reflexivity.
Defined.

(** The witness of X4: an accepted name that ends with a newline. *)
Lemma validate_filename_accepts_witness :
  validate_filename ascii_isalnum (u "ankidroid-api.js" ++ [10])
  = Ok (u "ankidroid-api.js" ++ [10]).
Proof.
  apply (validate_filename_accepts_exactly ascii_isalnum
           (u "ankidroid-api.js" ++ [10]) eq_refl eq_refl eq_refl eq_refl).
  exists (u "ankidroid-api"), (u "js"), [10]. repeat split; try done. by right.
Defined.

(** The witness of X2: a tag with a space, between spaces. *)
Lemma validated_tag_witness :
  validate_tag ascii_isalnum (u " chapter 1 ") 100 = Ok (u "chapter_1")
  /\ char_in 32 (u "chapter_1") = false
  /\ validate_tag ascii_isalnum (u "chapter_1") 100 = Ok (u "chapter_1").
Proof.
  split; [reflexivity|].
  destruct (validated_tag_is_clean ascii_isalnum (u " chapter 1 ") 100
              (u "chapter_1") eq_refl) as (_ & _ & _ & H1 & _ & H2).
  split; [exact H1|exact H2].
Defined.

(** * More of the rate limiter *)

Section RateLimiterMore.
Import RateLimiter.
Implicit Types (st : state) (key : pystr) (now : Q).

Lemma stale_keys_spec now st key :
  key ∈ stale_keys now st <-> stale_bucket now key st = true.
Proof.
  unfold stale_keys, stale_bucket. rewrite list_elem_of_In, in_map_iff. split.
  - intros ([k [t lr]] & <- & [Hin Hst]%filter_In). simpl.
    apply list_elem_of_In, elem_of_map_to_list in Hin. by rewrite Hin.
  - destruct (_buckets st !! key) as [[t lr]|] eqn:E; [|done]. intros H.
    exists (key, (t, lr)). split; [done|]. apply filter_In. split; [|done].
    by apply list_elem_of_In, elem_of_map_to_list.
Qed.

Lemma cleanup_lookup now st key :
  _buckets (_cleanup_stale_entries now st) !! key
  = (if stale_bucket now key st then None else _buckets st !! key)
  /\ _call_counts (_cleanup_stale_entries now st) !! key
  = (if stale_bucket now key st then None else _call_counts st !! key).
Proof.
  unfold _cleanup_stale_entries. rewrite drop_keys_buckets, drop_keys_counts.
  pose proof (stale_keys_spec now st key) as H.
  destruct (stale_bucket now key st).
  - by rewrite bool_decide_eq_true_2 by by apply H.
  - rewrite bool_decide_eq_false_2; [done|]. intros Hin. by apply H in Hin.
Qed.

Lemma periodic_cleanup_lookup now st key :
  _buckets (periodic_cleanup now st) !! key
  = (if sweep_due now st && stale_bucket now key st then None
     else _buckets st !! key)
  /\ _call_counts (periodic_cleanup now st) !! key
  = (if sweep_due now st && stale_bucket now key st then None
     else _call_counts st !! key).
Proof.
  unfold periodic_cleanup, sweep_due.
  destruct (Qltb _CLEANUP_INTERVAL _); [|done]. cbn [_buckets _call_counts andb].
  apply cleanup_lookup.
Qed.

(** X5: [_cleanup_stale_entries] removes the bucket and the counter of
    exactly the keys whose bucket is stale (last refilled more than 3600
    seconds before [now]); it leaves the others as they are, and no stale
    bucket is left. *)
Theorem cleanup_removes_exactly_stale now st key :
  _buckets (_cleanup_stale_entries now st) !! key
  = (if stale_bucket now key st then None else _buckets st !! key)
  /\ _call_counts (_cleanup_stale_entries now st) !! key
  = (if stale_bucket now key st then None else _call_counts st !! key)
  /\ stale_bucket now key (_cleanup_stale_entries now st) = false.
Proof.
  destruct (cleanup_lookup now st key) as [Hb Hc]. repeat split; [done..|].
  unfold stale_bucket at 1. rewrite Hb.
  destruct (stale_bucket now key st) eqn:E; [done|].
  unfold stale_bucket in E. by destruct (_buckets st !! key) as [[]|].
Qed.

(** X6: a call of [check] for one key changes the bucket and the counter of
    another key through the sweep only: both are removed when the sweep is
    due and that bucket is stale, and both are unchanged otherwise. *)
Theorem check_other_key now identifier operation max_per_second st key :
  key <> key_of identifier operation ->
  _buckets (snd (check now identifier operation max_per_second st)) !! key
  = (if sweep_due now st && stale_bucket now key st then None
     else _buckets st !! key)
  /\ _call_counts (snd (check now identifier operation max_per_second st)) !! key
  = (if sweep_due now st && stale_bucket now key st then None
     else _call_counts st !! key).
Proof.
  intros Hne. destruct (periodic_cleanup_lookup now st key) as [<- <-].
  rewrite check_unfold. cbv zeta.
  destruct (_buckets (periodic_cleanup now st) !! key_of identifier operation)
    as [[t lr]|].
  - destruct (Qle_bool 1 _); cbn [snd _buckets _call_counts]; [|done].
    by rewrite !lookup_insert_ne.
  - cbn [snd _buckets _call_counts]. by rewrite !lookup_insert_ne.
Qed.

(** X7: the key [identifier:operation] determines the identifier and the
    operation, when the identifiers contain no colon. *)
Theorem key_of_injective identifier operation identifier' operation' :
  char_in 58 identifier = false -> char_in 58 identifier' = false ->
  key_of identifier operation = key_of identifier' operation' ->
  identifier = identifier' /\ operation = operation'.
Proof.
  unfold key_of, char_in. revert identifier'.
  induction identifier as [|c i IH]; intros [|c' i']; cbn [existsb app].
  - by intros _ _ [= ->].
  - intros _ [H _]%orb_false_iff [= <- _]. done.
  - intros [H _]%orb_false_iff _ [= -> _]. done.
  - intros [_ H]%orb_false_iff [_ H']%orb_false_iff [= -> E].
    destruct (IH _ H H' E) as [-> ->]. done.
Qed.

(** ** [reset] *)

Lemma reset_keys_spec (i : pystr) st key :
  key ∈ List.filter (fun k => startswith k (key_of i []))
          (List.map fst (map_to_list (_buckets st)))
  <-> startswith key (key_of i []) = true /\ is_Some (_buckets st !! key).
Proof.
  rewrite list_elem_of_In, filter_In, in_map_iff. split.
  - intros [([k b] & <- & Hin) Hp]. split; [done|]. simpl.
    apply list_elem_of_In, elem_of_map_to_list in Hin. by exists b.
  - intros [Hp [b Hb]]. split; [|done]. exists (key, b). split; [done|].
    by apply list_elem_of_In, elem_of_map_to_list.
Qed.

Lemma reset_lookup c i st key :
  _buckets (reset (Some (c :: i)) st) !! key
  = (if startswith key (key_of (c :: i) []) then None else _buckets st !! key)
  /\ _call_counts (reset (Some (c :: i)) st) !! key
  = (if startswith key (key_of (c :: i) [])
        && bool_decide (is_Some (_buckets st !! key))
     then None else _call_counts st !! key).
Proof.
  unfold reset. rewrite drop_keys_buckets, drop_keys_counts.
  pose proof (reset_keys_spec (c :: i) st key) as H.
  destruct (startswith key (key_of (c :: i) [])) eqn:Hp.
  - destruct (_buckets st !! key) as [b|] eqn:Hb.
    + rewrite bool_decide_eq_true_2 by (apply H; eauto).
      by rewrite (bool_decide_eq_true_2 (is_Some (Some b))) by eauto.
    + rewrite bool_decide_eq_false_2.
      2:{ intros [_ [? ?]]%H. done. }
      rewrite (bool_decide_eq_false_2 (is_Some None)); [done|].
      by intros [? ?].
  - rewrite bool_decide_eq_false_2; [done|]. by intros [? _]%H.
Qed.

(** X8: [reset(identifier)] with an identifier that is not empty removes the
    bucket of every key that starts with [identifier:], and the counter of
    those keys that had a bucket; it leaves every other bucket and counter,
    and the time of the last sweep. *)
Theorem reset_identifier_removes_prefix c i st key :
  _buckets (reset (Some (c :: i)) st) !! key
  = (if startswith key (key_of (c :: i) []) then None else _buckets st !! key)
  /\ _call_counts (reset (Some (c :: i)) st) !! key
  = (if startswith key (key_of (c :: i) [])
        && bool_decide (is_Some (_buckets st !! key))
     then None else _call_counts st !! key)
  /\ _last_cleanup (reset (Some (c :: i)) st) = _last_cleanup st.
Proof.
  destruct (reset_lookup c i st key) as [Hb Hc]. repeat split; [done..|].
  unfold reset. apply drop_keys_last_cleanup.
Qed.


(** ** Invariants *)

Lemma check_counters now identifier operation max_per_second st :
  counters_follow_buckets st ->
  counters_follow_buckets (snd (check now identifier operation max_per_second st)).
Proof.
  intros Hst.
  assert (counters_follow_buckets (periodic_cleanup now st)) as Hst1.
  { intros key. destruct (periodic_cleanup_lookup now st key) as [-> ->].
    destruct (sweep_due now st && stale_bucket now key st); [done|apply Hst]. }
  rewrite check_unfold. cbv zeta. revert Hst1.
  generalize (periodic_cleanup now st) as st1. intros st1 Hst1.
  set (k := key_of identifier operation).
  assert (Hset : forall b n, 1 <= n ->
            counters_follow_buckets
              (mkState (<[k := b]> (_buckets st1)) (<[k := n]> (_call_counts st1))
                       (_last_cleanup st1))).
  { intros b n Hn key. cbn [_buckets _call_counts].
    destruct (decide (key = k)) as [->|Hne].
    - rewrite !lookup_insert_eq. eauto.
    - rewrite !lookup_insert_ne by done. apply Hst1. }
  destruct (_buckets st1 !! k) as [[t lr]|] eqn:E.
  - destruct (Qle_bool 1 _); cbn [snd]; [|done]. apply Hset.
    specialize (Hst1 k). destruct (_call_counts st1 !! k); simpl; [lia|done].
  - cbn [snd]. by apply Hset.
Qed.

Lemma reset_counters identifier st :
  counters_follow_buckets st -> counters_follow_buckets (reset identifier st).
Proof.
  intros Hst key. destruct identifier as [[|c i]|];
    [cbn [reset _buckets _call_counts]; by rewrite !lookup_empty|
    |cbn [reset _buckets _call_counts]; by rewrite !lookup_empty].
  destruct (reset_lookup c i st key) as [-> ->]. specialize (Hst key).
  destruct (startswith key _); cbn [andb]; [|done].
  destruct (_buckets st !! key) as [b|] eqn:Hb.
  - by rewrite bool_decide_eq_true_2 by eauto.
  - rewrite bool_decide_eq_false_2 by (by intros [? ?]).
    destruct (_call_counts st !! key); [|done]. by destruct Hst as [[? ?] _].
Qed.

(** X10: after any sequence of calls of [check] and [reset] from the initial
    state, the keys that have a counter are the keys that have a bucket,
    and every counter is at least 1. *)
Theorem counters_follow_buckets_always acts loaded :
  counters_follow_buckets (run_actions acts (init loaded)).
Proof.
  unfold run_actions.
  assert (counters_follow_buckets (init loaded)) as H.
  { intros key. cbn. by rewrite !lookup_empty. }
  revert H. generalize (init loaded) as st.
  induction acts as [|a acts IH]; intros st Hst; [done|].
  cbn [fold_left]. apply IH. destruct a as [c|identifier]; cbn [step].
  - by apply check_counters.
  - by apply reset_counters.
Qed.

Lemma check_tokens_nonneg now identifier operation max_per_second st :
  0 <= max_per_second ->
  (forall key t, tokens_of key st = Some t -> (0 <= t)%Q) ->
  forall key t,
    tokens_of key (snd (check now identifier operation max_per_second st))
      = Some t -> (0 <= t)%Q.
Proof.
  intros Hm Hst.
  assert (forall key t, tokens_of key (periodic_cleanup now st) = Some t
                        -> (0 <= t)%Q) as Hst1.
  { intros key t. unfold tokens_of.
    destruct (periodic_cleanup_lookup now st key) as [-> _].
    destruct (sweep_due now st && stale_bucket now key st); [done|apply Hst]. }
  rewrite check_unfold. cbv zeta. revert Hst1.
  generalize (periodic_cleanup now st) as st1. intros st1 Hst1.
  set (k := key_of identifier operation). unfold tokens_of in *.
  assert (Hset : forall (b : Q) lr c, (0 <= b)%Q ->
            forall key t,
              fst <$> _buckets (mkState (<[k := (b, lr)]> (_buckets st1)) c
                                  (_last_cleanup st1)) !! key = Some t ->
              (0 <= t)%Q).
  { intros b lr c Hb key t. cbn [_buckets].
    destruct (decide (key = k)) as [->|Hne].
    - rewrite lookup_insert_eq. by intros [= <-].
    - rewrite lookup_insert_ne by done. apply Hst1. }
  destruct (_buckets st1 !! k) as [[t0 lr]|] eqn:E.
  - destruct (Qle_bool 1 _) eqn:Hle; cbn [snd]; [|done].
    apply Hset. apply Qle_bool_iff in Hle. lra.
  - cbn [snd]. apply Hset. change 0%Q with (inject_Z 0). by rewrite <- Zle_Qle.
Qed.

Lemma reset_tokens_nonneg identifier st :
  (forall key t, tokens_of key st = Some t -> (0 <= t)%Q) ->
  forall key t, tokens_of key (reset identifier st) = Some t -> (0 <= t)%Q.
Proof.
  intros Hst key t. unfold tokens_of. destruct identifier as [[|c i]|];
    [cbn [reset _buckets]; by rewrite lookup_empty|
    |cbn [reset _buckets]; by rewrite lookup_empty].
  destruct (reset_lookup c i st key) as [-> _].
  destruct (startswith key _); [done|apply Hst].
Qed.

(** X11: when no call passes a negative rate, the tokens of a bucket are
    never negative, after any sequence of calls of [check] and [reset] from
    the initial state. *)
Theorem tokens_never_negative acts loaded key t :
  rates_nonneg acts = true ->
  tokens_of key (run_actions acts (init loaded)) = Some t -> (0 <= t)%Q.
Proof.
  unfold run_actions. intros Hr.
  assert (forall key t, tokens_of key (init loaded) = Some t -> (0 <= t)%Q) as H.
  { intros key' t'. unfold tokens_of. cbn. by rewrite lookup_empty. }
  revert H key t. generalize (init loaded) as st.
  induction acts as [|a acts IH]; intros st Hst; [done|].
  cbn [rates_nonneg forallb] in Hr. apply andb_true_iff in Hr as [Ha Hr].
  cbn [fold_left]. apply IH; [done|]. destruct a as [c|identifier]; cbn [step].
  - apply check_tokens_nonneg; [lia|done].
  - by apply reset_tokens_nonneg.
Qed.

(** ** The call counter *)

Lemma check_consumes_count now identifier operation (N r : Z) st :
  holds_tokens now (key_of identifier operation) r st ->
  1 <= r <= N ->
  exists st',
    check now identifier operation N st = (true, st')
    /\ holds_tokens now (key_of identifier operation) (r - 1) st'
    /\ get_call_count identifier operation st'
       = get_call_count identifier operation st + 1.
Proof.
  intros Hst Hr.
  destruct (check_consumes now identifier operation N r st Hst Hr)
    as (st' & Hc & Hst').
  exists st'. split; [done|]. split; [done|].
  destruct Hst as [Hsw (t & Hb & _)].
  revert Hc. rewrite check_unfold, (cleanup_due_id _ _ Hsw). cbv zeta.
  rewrite Hb. destruct (Qle_bool 1 _); [|done]. intros [= <-].
  unfold get_call_count. cbn [_call_counts]. by rewrite lookup_insert_eq.
Qed.

Lemma run_counts now identifier operation (N : Z) (m k : nat) st :
  holds_tokens now (key_of identifier operation) (Z.of_nat k) st ->
  Z.of_nat k <= N ->
  get_call_count identifier operation
    (snd (run (repeat (mkCall now identifier operation N) m) st))
  = get_call_count identifier operation st + Z.min (Z.of_nat m) (Z.of_nat k).
Proof.
  revert k st. induction m as [|m IH]; intros k st Hst Hk.
  - cbn. lia.
  - cbn [repeat]. rewrite run_cons. cbn [call_now call_identifier
      call_operation call_max]. destruct k as [|k].
    + rewrite (check_rejects _ _ _ _ _ Hst). cbn [snd].
      rewrite (IH 0%nat st Hst Hk). lia.
    + destruct (check_consumes_count now identifier operation N
                  (Z.of_nat (S k)) st) as (st' & -> & Hst' & Hc); [done|lia|].
      cbn [snd]. replace (Z.of_nat (S k) - 1) with (Z.of_nat k) in Hst' by lia.
      rewrite (IH k st' Hst') by lia. lia.
Qed.



End RateLimiterMore.

Import RateLimiter.

(** The witness of X6: a call for another operation of the same identifier. *)
Lemma check_other_key_witness :
  _buckets (snd (check 5 (u "t") (u "g") 3 after_four_calls)) !! u "t:f"
  = _buckets after_four_calls !! u "t:f"
  /\ _call_counts (snd (check 5 (u "t") (u "g") 3 after_four_calls)) !! u "t:f"
  = _call_counts after_four_calls !! u "t:f".
Proof.
  apply (check_other_key 5 (u "t") (u "g") 3 after_four_calls (u "t:f")).
  discriminate.
Defined.

(** The witness of X7: the key of a function under the template id [unknown]. *)
Lemma key_of_injective_witness :
  u "unknown" = u "unknown" /\ u "ankiGetCardId" = u "ankiGetCardId".
Proof.
  apply (key_of_injective (u "unknown") (u "ankiGetCardId")
           (u "unknown") (u "ankiGetCardId")); reflexivity.
Defined.


(** The witness of X11: two calls at the rate 2, and a reset between them. *)
Lemma tokens_never_negative_witness :
  rates_nonneg [CallCheck (mkCall 0 (u "t") (u "f") 2);
                CallReset (Some (u "x"));
                CallCheck (mkCall 0 (u "t") (u "f") 2)] = true
  /\ (0 <= 1)%Q.
Proof.
  split; [reflexivity|].
  apply (tokens_never_negative
           [CallCheck (mkCall 0 (u "t") (u "f") 2);
            CallReset (Some (u "x"));
            CallCheck (mkCall 0 (u "t") (u "f") 2)] 0 (u "t:f") 1);
    vm_compute; reflexivity.
Defined.



(** * More of the log redaction *)

Section RedactionMore.
Import LogRedactor.
Implicit Types data pre post : pystr.

Lemma no_dq_no_py_after_dq data :
  forallb not_dq data = true -> no_py_after_dq data.
Proof.
  intros H a b ->. rewrite forallb_app in H.
  apply andb_true_iff in H as [_ H]. cbn [forallb] in H.
  apply andb_true_iff in H as [H _]. unfold not_dq in H.
  by rewrite Z.eqb_refl in H.
Qed.

Lemma redact_no_dq data : forallb not_dq data = true -> redact data = data.
Proof.
  intros H. unfold redact, re_sub.
  rewrite text_re_field, query_re_field, tags_re_field.
  rewrite (field_sub_no_dq (u "text")) by done.
  rewrite (field_sub_no_dq (u "query")) by done.
  rewrite (field_sub_no_dq (u "tags")) by done.
  apply (sub_unmatched _ _ no_py_after_dq);
    [apply no_py_after_dq_tail|apply path_re_needs_py|].
  by apply no_dq_no_py_after_dq.
Qed.

(** X14: a message without double quote passes the four substitutions
    unchanged: [sanitize_for_logging] returns its truncation, and the
    message itself when it is no longer than [max_length]. *)
Theorem quote_free_message_unchanged data max_length :
  forallb not_dq data = true ->
  sanitize_for_logging data max_length = truncate max_length data
  /\ (len data <= max_length -> sanitize_for_logging data max_length = data).
Proof.
  intros H. unfold sanitize_for_logging. rewrite (redact_no_dq _ H).
  split; [done|]. apply truncate_fits.
Qed.

(** X15: for [max_length >= 0], what [sanitize_for_logging] returns is never
    longer than [max_length + 3]: the cut text and the three dots. *)
Theorem sanitized_length_bound data max_length :
  0 <= max_length ->
  len (sanitize_for_logging data max_length) <= max_length + 3.
Proof.
  intros Hm. unfold sanitize_for_logging, truncate.
  destruct (Z.ltb_spec max_length (len (redact data))) as [Hlt|Hle]; [|lia].
  unfold len, slice_to in *. destruct (Z.ltb_spec max_length 0); [lia|].
  rewrite length_app, length_firstn. cbn [length u]. simpl length. lia.
Qed.

End RedactionMore.

Import LogRedactor.

(** The witness of X14. *)
Lemma quote_free_message_witness :
  sanitize_for_logging (u "card 12 answered with ease 3") 100
  = u "card 12 answered with ease 3".
Proof.
  apply (quote_free_message_unchanged (u "card 12 answered with ease 3") 100);
    [reflexivity|]. vm_compute. discriminate.
Defined.

(** The witness of X15: a message of 150 characters. *)
Lemma sanitized_length_witness :
  len (sanitize_for_logging (repeat 120 (Z.to_nat 150)) 100) <= 100 + 3
  /\ len (sanitize_for_logging (repeat 120 (Z.to_nat 150)) 100) = 103.
Proof.
  split; [|vm_compute; reflexivity].
  apply (sanitized_length_bound (repeat 120 (Z.to_nat 150)) 100). lia.
Defined.

Section Backtracking.
Context {R : Type}.
Implicit Types (k : cursor -> option R) (g : list pystr).

(** A greedy run gives way: when the continuation fails after every
    longer run, the run stops where the continuation succeeds. *)
Lemma star_all_fail p g k n s :
  (forall a b, s = a ++ b -> a <> [] -> forallb p a = true ->
               k (mkCursor (n + length a) b g) = None) ->
  star p g k n s = k (mkCursor n s g).
Proof.
  revert n. induction s as [|c s IH]; intros n Hfail; [done|].
  cbn [star]. destruct (p c) eqn:Hc; [|done].
  rewrite IH.
  - assert (k (mkCursor (S n) s g) = None) as ->; [|done].
    replace (S n) with (n + length [c])%nat by (cbn [length]; lia).
    apply Hfail; [done|done|]. cbn [forallb]. by rewrite Hc.
  - intros a b -> Ha Hpa.
    replace (S n + length a)%nat with (n + length (c :: a))%nat
      by (cbn [length]; lia).
    apply Hfail; [done|done|]. cbn [forallb]. by rewrite Hc.
Qed.

Lemma star_backtrack p g k n w s x :
  forallb p w = true ->
  k (mkCursor (n + length w) s g) = Some x ->
  (forall a b, s = a ++ b -> a <> [] -> forallb p a = true ->
               k (mkCursor (n + length w + length a) b g) = None) ->
  star p g k n (w ++ s) = Some x.
Proof.
  revert n. induction w as [|c w IH]; intros n Hw Hk Hfail.
  - cbn [app]. rewrite star_all_fail.
    + cbn [length] in Hk. by rewrite Nat.add_0_r in Hk.
    + intros a b E Ha Hpa. specialize (Hfail a b E Ha Hpa).
      cbn [length] in Hfail. by rewrite Nat.add_0_r in Hfail.
  - cbn [forallb] in Hw. apply andb_true_iff in Hw as [Hc Hw].
    cbn [app star]. rewrite Hc. rewrite (IH (S n)); [done|done| |].
    + by replace (S n + length w)%nat with (n + length (c :: w))%nat
        by (cbn [length]; lia).
    + intros a b E Ha Hpa.
      replace (S n + length w + length a)%nat
        with (n + length (c :: w) + length a)%nat by (cbn [length]; lia).
      by apply Hfail.
Qed.

End Backtracking.

Section SubPrefix.
Variable r : regex.
Variable repl : list pystr -> pystr.

(** A prefix in which no match starts is copied. *)
Lemma sub_prefix_unmatched n pre s :
  (forall a b m, pre = a ++ b -> b <> [] ->
                 exec r (mkCursor m (b ++ s) []) Some = None) ->
  sub_from r repl 0 n (pre ++ s) = pre ++ sub_from r repl 0 (n + length pre) s.
Proof.
  revert n. induction pre as [|x pre IH]; intros n Hno.
  - cbn [app length]. by rewrite Nat.add_0_r.
  - cbn [app]. rewrite sub_step_none.
    2:{ apply (Hno [] (x :: pre) n); done. }
    rewrite IH.
    + cbn [length]. by rewrite Nat.add_succ_r.
    + intros a b m -> Hb. by apply (Hno (x :: a) b m).
Qed.

End SubPrefix.

Section QuotedPath.
Import LogRedactor.
Implicit Types pre dir name post : pystr.

Lemma first_dq_unique (A B x y : pystr) :
  forallb not_dq A = true -> forallb not_dq B = true ->
  A ++ dq :: x = B ++ dq :: y -> A = B /\ x = y.
Proof.
  revert B. induction A as [|a A IH]; intros [|b B]; cbn [forallb app].
  - by intros _ _ [= ->].
  - intros _ [Hb _]%andb_true_iff [= <- _]. done.
  - intros [Ha _]%andb_true_iff _ [= -> _]. done.
  - intros [_ HA]%andb_true_iff [_ HB]%andb_true_iff [= -> E].
    destruct (IH B HA HB E) as [-> ->]. done.
Qed.

Lemma no_dq_in_app_dq (a b : pystr) : forallb not_dq (a ++ dq :: b) = false.
Proof.
  rewrite forallb_app. cbn [forallb]. unfold not_dq at 2.
  rewrite Z.eqb_refl. cbn [negb andb]. apply andb_false_r.
Qed.

(** After the group's separator, a text without [.py] before a double
    quote is no file name. *)
Lemma group_needs_py m t g :
  contains t py_dq = false ->
  exec (Cat (Group (Cat (Plus not_sep) (lits (u ".py")))) (Lit dq))
       (mkCursor m t g) (@Some cursor) = None.
Proof.
  intros Ht. cbn [exec pos rest groups].
  destruct t as [|y t]; [done|]. destruct (not_sep y); [|done].
  apply (star_none (fun t => contains t py_dq = false));
    [intros ? ?; apply contains_tail| |by apply contains_tail in Ht].
  intros m2 s Hs. rewrite exec_lits.
  destruct (startswith s (u ".py")) eqn:E; [|done]. cbn [pos rest groups].
  destruct (skipn (length (u ".py")) s) as [|z s'] eqn:Es; [done|].
  destruct (Z.eqb_spec z dq) as [->|]; [|done].
  rewrite (startswith_contains s py_dq) in Hs; [done|].
  by apply (startswith_next s (u ".py") dq s').
Qed.

(** In [.py<dq>post], with [post] free of double quotes, [.py<dq>] occurs
    at the start only. *)
Lemma py_dq_proper_suffix post (l b : pystr) :
  forallb not_dq post = true ->
  py_dq ++ post = l ++ b -> l <> [] -> contains b py_dq = false.
Proof.
  intros Hpost E Hl. destruct (contains b py_dq) eqn:Hc; [|done].
  apply contains_spec in Hc as (p & q & ->).
  assert (u ".py" ++ dq :: post = (l ++ p ++ u ".py") ++ dq :: q) as E'.
  { unfold py_dq in E. rewrite <- !app_assoc in *. exact E. }
  destruct (dq_after_prefix (u ".py") (dq :: post) (l ++ p ++ u ".py") q)
    as [[|d a'] Ha']; [done|exact E'| |].
  - injection Ha' as ->. apply (f_equal (@length Z)) in E'.
    rewrite !length_app in E'. cbn [length] in E'. rewrite ?length_app in E'.
    destruct l; [done|]. cbn [length] in E'. lia.
  - injection Ha' as _ ->. by rewrite no_dq_in_app_dq in Hpost.
Qed.

Lemma group_matches name post m g :
  name <> [] -> forallb not_sep name = true -> forallb not_dq post = true ->
  exec (Cat (Group (Cat (Plus not_sep) (lits (u ".py")))) (Lit dq))
       (mkCursor m (name ++ py_dq ++ post) g) (@Some cursor)
  = Some (mkCursor (m + length name + 4) post (g ++ [name ++ u ".py"])).
Proof.
  intros Hne Hname Hpost. destruct name as [|x name]; [done|].
  cbn [forallb] in Hname. apply andb_true_iff in Hname as [Hx Hname].
  cbn [exec pos rest groups app]. rewrite Hx.
  apply star_backtrack; [done| |].
  - rewrite exec_lits. unfold py_dq. rewrite <- app_assoc.
    rewrite startswith_app, drop_app_length. cbn [app pos rest groups].
    rewrite Z.eqb_refl. f_equal. f_equal.
    + cbn [length]. change (length (u ".py")) with 3%nat. lia.
    + f_equal. f_equal.
      change (x :: name ++ u ".py" ++ dq :: post)
        with ((x :: name) ++ u ".py" ++ dq :: post).
      rewrite app_assoc. apply take_app_length'.
      cbn [length]. rewrite length_app. lia.
  - intros a b E Ha _. rewrite exec_lits.
    destruct (startswith b (u ".py")) eqn:Eb; [|done]. cbn [pos rest groups].
    destruct (skipn (length (u ".py")) b) as [|z s'] eqn:Es; [done|].
    destruct (Z.eqb_spec z dq) as [->|]; [|done].
    pose proof (startswith_contains b py_dq
                  (startswith_next b (u ".py") dq s' Eb Es)) as Hc.
    by rewrite (py_dq_proper_suffix post a b Hpost E Ha) in Hc.
Qed.

Lemma exec_class_cat_cons (p : Z -> bool) r2 n x (s : pystr) g
    (k : cursor -> option cursor) :
  exec (Cat (Class p) r2) (mkCursor n (x :: s) g) k
  = if p x then exec r2 (mkCursor (S n) s g) k else None.
Proof. reflexivity. Qed.

Lemma exec_class_cat_nil (p : Z -> bool) r2 n g (k : cursor -> option cursor) :
  exec (Cat (Class p) r2) (mkCursor n [] g) k = None.
Proof. reflexivity. Qed.

(** The greedy [.*] gives way up to the last separator before the name. *)
Lemma path_tail_matches dir sep name post m g :
  is_sep sep = true -> forallb dot dir = true ->
  name <> [] -> forallb not_sep name = true -> forallb not_dq post = true ->
  exec (Cat (Star dot)
          (Cat (Class is_sep)
             (Cat (Group (Cat (Plus not_sep) (lits (u ".py")))) (Lit dq))))
       (mkCursor m (dir ++ sep :: name ++ py_dq ++ post) g) (@Some cursor)
  = Some (mkCursor (m + length dir + 1 + length name + 4) post
            (g ++ [name ++ u ".py"])).
Proof.
  intros Hsep Hdir Hne Hname Hpost.
  change (star dot g
            (fun c' =>
               exec (Cat (Class is_sep)
                       (Cat (Group (Cat (Plus not_sep) (lits (u ".py"))))
                          (Lit dq))) c' Some)
            m (dir ++ sep :: name ++ py_dq ++ post)
          = Some (mkCursor (m + length dir + 1 + length name + 4) post
                    (g ++ [name ++ u ".py"]))).
  apply star_backtrack; [done| |].
  - rewrite exec_class_cat_cons, Hsep, group_matches by done.
    do 2 f_equal. lia.
  - intros a b E Ha _. destruct a as [|s0 a]; [done|].
    injection E as _ E. destruct b as [|y b]; [apply exec_class_cat_nil|].
    rewrite exec_class_cat_cons. destruct (is_sep y) eqn:Hy; [|done].
    apply group_needs_py.
    destruct (app_eq_app _ _ _ _ E) as [l [[E1 E2]|[E1 E2]]].
    + destruct l as [|z l]; cbn [app] in E2.
      * injection E2 as -> _. done.
      * injection E2 as -> _. subst name. rewrite forallb_app in Hname.
        apply andb_true_iff in Hname as [_ Hname]. cbn [forallb] in Hname.
        apply andb_true_iff in Hname as [Hz _]. unfold not_sep in Hz.
        by rewrite Hy in Hz.
    + destruct l as [|z l]; cbn [app] in E2.
      * injection E2 as <- _. done.
      * apply (contains_tail y).
        by apply (py_dq_proper_suffix post (z :: l) (y :: b)).
Qed.

Lemma path_re_matches dir sep name post m :
  is_sep sep = true -> forallb dot dir = true ->
  name <> [] -> forallb not_sep name = true -> forallb not_dq post = true ->
  exec _SANITIZE_PATH_RE (mkCursor m (quoted_path dir sep name ++ post) []) Some
  = Some (mkCursor (m + length (quoted_path dir sep name)) post
            [name ++ u ".py"]).
Proof.
  intros Hsep Hdir Hne Hname Hpost. unfold _SANITIZE_PATH_RE, quoted_path.
  change (exec (Cat (lits (u "File " ++ [dq])) ?r) ?c ?k)
    with (exec (lits (u "File " ++ [dq])) c (fun c' => exec r c' k)).
  rewrite exec_lits.
  replace ((u "File " ++ dq :: dir ++ sep :: name ++ py_dq) ++ post)
    with ((u "File " ++ [dq]) ++ dir ++ sep :: name ++ py_dq ++ post).
  2:{ repeat first [rewrite <- app_assoc | progress cbn [app]]. reflexivity. }
  rewrite startswith_app, drop_app_length. cbn [pos rest groups].
  rewrite path_tail_matches by done. do 2 f_equal.
  rewrite !length_app. cbn [length]. rewrite !length_app. cbn [length].
  change (length (u "File ")) with 5%nat. unfold py_dq.
  rewrite ?length_app. change (length (u ".py")) with 3%nat. cbn [length]. lia.
Qed.

(** No match of the path pattern starts before the quoted path, in a
    text without double quote. *)
Lemma path_re_not_before (b rest0 : pystr) m :
  forallb not_dq b = true -> b <> [] ->
  exec _SANITIZE_PATH_RE (mkCursor m (b ++ u "File " ++ dq :: rest0) []) Some
  = None.
Proof.
  intros Hb Hne. unfold _SANITIZE_PATH_RE.
  change (exec (Cat (lits (u "File " ++ [dq])) ?r) ?c ?k)
    with (exec (lits (u "File " ++ [dq])) c (fun c' => exec r c' k)).
  rewrite exec_lits.
  destruct (startswith _ (u "File " ++ [dq])) eqn:E; [|done].
  apply startswith_split in E. revert E.
  generalize (skipn (length (u "File " ++ [dq])) (b ++ u "File " ++ dq :: rest0)).
  intros q E.
  assert ((b ++ u "File ") ++ dq :: rest0 = u "File " ++ dq :: q) as E'.
  { rewrite <- app_assoc. rewrite E. by rewrite <- app_assoc. }
  apply first_dq_unique in E' as [E' _]; [|by rewrite forallb_app, Hb|done].
  apply (f_equal (@length Z)) in E'. rewrite length_app in E'.
  destruct b; [done|]. cbn [length] in E'. lia.
Qed.

Lemma path_stage_strips pre dir sep name post :
  is_sep sep = true -> forallb dot dir = true ->
  name <> [] -> forallb not_sep name = true ->
  forallb not_dq pre = true -> forallb not_dq post = true ->
  re_sub _SANITIZE_PATH_RE path_repl (pre ++ quoted_path dir sep name ++ post)
  = pre ++ u "File " ++ dq :: name ++ py_dq ++ post.
Proof.
  intros Hsep Hdir Hne Hname Hpre Hpost. unfold re_sub.
  rewrite sub_prefix_unmatched.
  2:{ intros a b m -> Hb. unfold quoted_path. rewrite <- !app_assoc.
      cbn [app]. apply path_re_not_before; [|done].
      rewrite forallb_app in Hpre. by apply andb_true_iff in Hpre as [_ ?]. }
  rewrite (sub_step_match _ _ _ (quoted_path dir sep name) post
             [name ++ u ".py"]).
  - rewrite (sub_unmatched _ _ no_py_after_dq);
      [|apply no_py_after_dq_tail|apply path_re_needs_py
       |by apply no_dq_no_py_after_dq].
    unfold path_repl, py_dq. cbn [nth].
    repeat first [rewrite <- app_assoc | progress cbn [app]]. reflexivity.
  - unfold quoted_path. by destruct (u "File ").
  - by apply path_re_matches.
Qed.

(** The field patterns match nowhere in a text whose only double quotes
    are those of the quoted path. *)
Lemma field_stage_keeps_path key opening closing repl pre dir sep name post n :
  forallb not_dq key = true -> forallb not_sep key = true ->
  is_sep sep = true ->
  forallb not_dq pre = true -> forallb not_dq dir = true ->
  forallb not_dq name = true -> forallb not_dq post = true ->
  sub_from (field_re key opening closing) repl 0 n
    (pre ++ quoted_path dir sep name ++ post)
  = pre ++ quoted_path dir sep name ++ post.
Proof.
  intros Hkq Hks Hsep Hpre Hdir Hname Hpost.
  apply (sub_unmatched _ _
           (fun t => forall a b, t = a ++ dq :: b ->
                                 startswith b (key ++ [dq; 58]) = false)).
  - intros c t Ht a b ->. by apply (Ht (c :: a) b).
  - intros m [|x t] Ht; [apply field_re_nil|].
    destruct (not_dq x) eqn:Hx; [by apply field_re_not_dq|].
    unfold not_dq in Hx. apply negb_false_iff, Z.eqb_eq in Hx as ->.
    unfold field_re.
    change (exec (Cat (lits (dq :: key ++ [dq; 58])) ?r) ?c ?k)
      with (exec (lits (dq :: key ++ [dq; 58])) c (fun c' => exec r c' k)).
    rewrite exec_lits. cbn [startswith]. rewrite Z.eqb_refl. cbn [andb].
    by rewrite (Ht [] t eq_refl).
  - assert (forallb not_dq (dir ++ sep :: name ++ u ".py") = true) as HA.
    { rewrite forallb_app, Hdir. cbn [forallb andb].
      rewrite forallb_app, Hname. cbn [andb].
      assert (not_dq sep = true) as ->; [|done].
      unfold not_dq, is_sep, dq in *.
      destruct (Z.eqb_spec sep 34) as [->|]; done. }
    intros a b E.
    assert ((pre ++ u "File ") ++ dq :: (dir ++ sep :: name ++ u ".py")
              ++ dq :: post = a ++ dq :: b) as E1.
    { rewrite <- E. unfold quoted_path, py_dq.
      repeat first [rewrite <- app_assoc | progress cbn [app]]. reflexivity. }
    apply dq_after_prefix in E1 as [a' E1]; [|by rewrite forallb_app, Hpre].
    destruct (startswith b (key ++ [dq; 58])) eqn:Hs; [|done].
    apply startswith_split in Hs. revert Hs.
    generalize (skipn (length (key ++ [dq; 58])) b). intros q Hs.
    rewrite <- app_assoc in Hs. cbn [app] in Hs.
    destruct a' as [|d a']; cbn [app] in E1.
    + injection E1 as E1. rewrite <- E1 in Hs.
      apply first_dq_unique in Hs as [Hs _]; [|done..].
      rewrite <- Hs in Hks. rewrite forallb_app in Hks. cbn [forallb] in Hks.
      unfold not_sep at 2 in Hks. rewrite Hsep in Hks.
      cbn [negb andb] in Hks. by rewrite andb_false_r in Hks.
    + injection E1 as _ E1.
      apply dq_after_prefix in E1 as [a3 E1]; [|done].
      destruct a3 as [|d3 a3]; cbn [app] in E1.
      * injection E1 as E1. rewrite <- E1 in Hs. rewrite Hs in Hpost.
        by rewrite no_dq_in_app_dq in Hpost.
      * injection E1 as _ E1. rewrite E1 in Hpost.
        by rewrite no_dq_in_app_dq in Hpost.
Qed.

(** X16: the quoted path of a traceback line is reduced to its file name. In
    a message whose only double quotes are those of File <dq>dir/name.py<dq>,
    with a directory part without newline and a name without separator,
    [sanitize_for_logging] returns the truncation of the message with
    File <dq>name.py<dq> in its place, whatever separators the directory
    part and the rest of the message contain. *)
Theorem quoted_path_keeps_file_name pre dir sep name post max_length :
  is_sep sep = true ->
  forallb dot dir = true -> forallb not_dq dir = true ->
  name <> [] -> forallb not_sep name = true -> forallb not_dq name = true ->
  forallb not_dq pre = true -> forallb not_dq post = true ->
  sanitize_for_logging (pre ++ quoted_path dir sep name ++ post) max_length
  = truncate max_length (pre ++ u "File " ++ dq :: name ++ py_dq ++ post).
Proof.
  intros Hsep Hdot Hdir Hne Hns Hname Hpre Hpost.
  unfold sanitize_for_logging, redact, re_sub.
  rewrite text_re_field, query_re_field, tags_re_field.
  rewrite (field_stage_keeps_path (u "text")) by done.
  rewrite (field_stage_keeps_path (u "query")) by done.
  rewrite (field_stage_keeps_path (u "tags")) by done.
  fold (re_sub _SANITIZE_PATH_RE path_repl
          (pre ++ quoted_path dir sep name ++ post)).
  by rewrite path_stage_strips.
Qed.

End QuotedPath.

(** The witness of X16: a path with both separators. *)
Lemma quoted_path_witness :
  sanitize_for_logging
    (u "  File " ++ [dq] ++ u "C:\Users\me\addons/card_info.py" ++ [dq]
       ++ u ", line 12") 100
  = u "  File " ++ [dq] ++ u "card_info.py" ++ [dq] ++ u ", line 12".
Proof.
  apply (quoted_path_keeps_file_name (u "  ") (u "C:\Users\me\addons") 47
           (u "card_info") (u ", line 12") 100); reflexivity || discriminate.
Defined.

(** * More of the command router *)

Section RouterMore.
Import ApiBridge.
Variable isdecimal : Z -> bool.
Variable json_loads : pystr -> result PyValue.
Variable sha256_hexdigest : pystr -> pystr.
Implicit Types (registry : gmap pystr PyCallable) (w : World).

Abbreviation send := (_send_callback isdecimal).
Abbreviation handle := (handle_pycmd isdecimal json_loads sha256_hexdigest).
Abbreviation body := (try_body isdecimal json_loads).
Abbreviation route := (dispatch isdecimal json_loads sha256_hexdigest).
Abbreviation template_id := (template_id_of sha256_hexdigest).
Abbreviation delivered := (delivery isdecimal).
Abbreviation callback_id_ok :=
  (re_match (InputValidator._CALLBACK_ID_PATTERN isdecimal)).

Lemma delivery_length reviewer callback_id json :
  (length (delivered reviewer callback_id json) <= 1)%nat.
Proof.
  unfold delivery. destruct (callback_id_ok callback_id); [|simpl; lia].
  destruct reviewer as [[crd []]|]; simpl; lia.
Qed.

(** Sending a response either hands at most one script to the web view, or
    raises and changes nothing. *)
Lemma send_cases reviewer callback_id response w :
  (exists json,
      send reviewer callback_id response w
      = (Ok tt, mkWorld (limiter w)
                  (evals w ++ delivered reviewer callback_id json)))
  \/ (exists e, send reviewer callback_id response w = (Raise e, w)).
Proof.
  destruct (json_dumps response) as [json|e] eqn:E.
  - left. exists json. by apply send_callback_json.
  - destruct (callback_id_ok callback_id) as [c|] eqn:Hc.
    + right. exists e. by apply (send_callback_raises _ _ _ _ _ _ c).
    + left. exists []. rewrite send_callback_refused by done.
      unfold delivery. rewrite Hc, app_nil_r. by destruct w.
Qed.

(** The [try] statement never raises, and hands at most one script to the
    web view. *)
Lemma try_outcome reviewer callback_id func args_json w :
  exists json,
    try_except (body reviewer callback_id func args_json)
      (fun e =>
         send reviewer callback_id
           (error_response (u "Operation failed: " ++ u (exc_type e)))) w
    = (Ok tt, mkWorld (limiter w)
                (evals w ++ delivered reviewer callback_id json)).
Proof.
  unfold try_except, try_body, bind, lift, raise, ret.
  destruct (MAX_JSON_PAYLOAD_BYTES <? len args_json);
    [eexists; apply send_callback_error|].
  destruct (parse_args json_loads args_json) as [args|e];
    [|eexists; apply send_callback_error].
  destruct (call_with func args) as [v|e];
    [|eexists; apply send_callback_error].
  destruct (send_cases reviewer callback_id (success_response v) w)
    as [[json ->]|[e ->]]; [by exists json|].
  eexists; apply send_callback_error.
Qed.

(** What the router does in every case: one call of the rate check, at
    most one script, no exception. *)
Lemma dispatch_outcome registry now reviewer callback_id function_name
    args_json w :
  exists json,
    route registry now reviewer callback_id function_name args_json w
    = (Ok tt,
       mkWorld (snd (RateLimiter.check now (template_id reviewer) function_name
                       DEFAULT_API_RATE_LIMIT_PER_SECOND (limiter w)))
         (evals w ++ delivered reviewer callback_id json)).
Proof.
  unfold dispatch, bind at 1, rate_check.
  destruct (RateLimiter.check _ _ _ _ _) as [[] st]; cbn [negb snd].
  - destruct (registry !! function_name) as [func|].
    + exact (try_outcome reviewer callback_id func args_json
               (mkWorld st (evals w))).
    + eexists. exact (send_callback_error isdecimal _ _ _ (mkWorld st (evals w))).
  - eexists. exact (send_callback_error isdecimal _ _ _ (mkWorld st (evals w))).
Qed.

Lemma handle_outcome registry now reviewer cmd w :
  exists json,
    handle registry now reviewer cmd w
    = if startswith cmd (u "ankidroidjs:")
         && (3 <=? length (split 58 3 cmd))%nat
      then (Ok tt,
            mkWorld (snd (RateLimiter.check now (template_id reviewer)
                            (nth 2 (split 58 3 cmd) [])
                            DEFAULT_API_RATE_LIMIT_PER_SECOND (limiter w)))
              (evals w ++ delivered reviewer (nth 1 (split 58 3 cmd) []) json))
      else (Ok tt, w).
Proof.
  destruct (startswith cmd (u "ankidroidjs:")) eqn:Hp; cbn [andb];
    [|exists []; unfold handle_pycmd; by rewrite Hp].
  destruct (Nat.leb_spec 3 (length (split 58 3 cmd))) as [Hl|Hl].
  - rewrite (handle_pycmd_dispatch _ _ _ registry now reviewer cmd Hp Hl).
    apply dispatch_outcome.
  - exists []. unfold handle_pycmd. rewrite Hp. cbn [negb].
    destruct (Nat.ltb_spec (length (split 58 3 cmd)) 3); [done|lia].
Qed.


(** X18: a command that has the prefix and at least three parts costs exactly
    one call of [RateLimiter.check], for the function name it carries,
    whether or not the name is registered, the callback id is valid and the
    payload is acceptable; any other command leaves the limiter as it
    is. *)
Theorem handle_pycmd_rate_budget registry now reviewer cmd w :
  limiter (snd (handle_pycmd isdecimal json_loads sha256_hexdigest registry now
                  reviewer cmd w))
  = if startswith cmd (u "ankidroidjs:")
       && (3 <=? length (split 58 3 cmd))%nat
    then snd (RateLimiter.check now (template_id reviewer)
                (nth 2 (split 58 3 cmd) [])
                DEFAULT_API_RATE_LIMIT_PER_SECOND (limiter w))
    else limiter w.
Proof.
  destruct (handle_outcome registry now reviewer cmd w) as [json ->].
  by destruct (_ && _).
Qed.

Lemma json_dumps_success_json v result_json :
  json_dumps v = Ok result_json ->
  json_dumps (success_response v) = Ok (success_json result_json).
Proof.
  intros H. unfold success_json. simpl. rewrite H. simpl.
  rewrite app_nil_r. reflexivity.
Qed.


Lemma dispatch_rejected registry now reviewer callback_id function_name
    args_json w st' :
  RateLimiter.check now (template_id reviewer) function_name
    DEFAULT_API_RATE_LIMIT_PER_SECOND (limiter w) = (false, st') ->
  route registry now reviewer callback_id function_name args_json w
  = (Ok tt,
     mkWorld st'
       (evals w ++ delivered reviewer callback_id
                     (error_json (u "Rate limit exceeded")))).
Proof.
  intros Hc. unfold dispatch, bind at 1, rate_check. rewrite Hc. cbn [negb].
  exact (send_callback_error isdecimal _ _ _ (mkWorld st' (evals w))).
Qed.



(** ** A burst of commands *)

Abbreviation handle_all := (handle_each isdecimal json_loads sha256_hexdigest).

Lemma handle_each_cons registry reviewer now cmd cmds w w1 :
  handle registry now reviewer cmd w = (Ok tt, w1) ->
  handle_all registry reviewer ((now, cmd) :: cmds) w
  = handle_all registry reviewer cmds w1.
Proof. intros H. cbn [handle_each]. unfold bind. by rewrite H. Qed.

Lemma handle_each_app registry reviewer cmds1 cmds2 w w1 :
  handle_all registry reviewer cmds1 w = (Ok tt, w1) ->
  handle_all registry reviewer (cmds1 ++ cmds2) w
  = handle_all registry reviewer cmds2 w1.
Proof.
  revert w. induction cmds1 as [|[now cmd] cmds1 IH]; intros w.
  - cbn [handle_each app]. unfold ret. by intros [= ->].
  - cbn [handle_each app]. unfold bind.
    destruct (handle registry now reviewer cmd w) as [[[]|e] w']; [|done].
    apply IH.
Qed.

(** A command with a valid callback id, sent to a reviewer with a web
    view, is answered by exactly one script. *)
Lemma handle_answered registry now reviewer r cmd c w :
  startswith cmd (u "ankidroidjs:") = true ->
  (3 <= length (split 58 3 cmd))%nat ->
  callback_id_ok (nth 1 (split 58 3 cmd) []) = Some c ->
  reviewer = Some r -> web r = true ->
  exists json,
    handle registry now reviewer cmd w
    = (Ok tt,
       mkWorld (snd (RateLimiter.check now (template_id reviewer)
                       (nth 2 (split 58 3 cmd) [])
                       DEFAULT_API_RATE_LIMIT_PER_SECOND (limiter w)))
         (evals w ++ [js_callback (nth 1 (split 58 3 cmd) []) json])).
Proof.
  intros Hp Hl Hcb -> Hweb.
  destruct (handle_outcome registry now (Some r) cmd w) as [json ->].
  rewrite Hp. destruct (Nat.leb_spec 3 (length (split 58 3 cmd))); [|lia].
  cbn [andb]. exists json. unfold delivery. by rewrite Hcb, Hweb.
Qed.

Lemma burst_admitted registry now reviewer r cmd c (k : nat) w :
  startswith cmd (u "ankidroidjs:") = true ->
  (3 <= length (split 58 3 cmd))%nat ->
  callback_id_ok (nth 1 (split 58 3 cmd) []) = Some c ->
  reviewer = Some r -> web r = true ->
  RateLimiter.holds_tokens now
    (RateLimiter.key_of (template_id reviewer) (nth 2 (split 58 3 cmd) []))
    (Z.of_nat k) (limiter w) ->
  Z.of_nat k <= DEFAULT_API_RATE_LIMIT_PER_SECOND ->
  exists st scripts,
    handle_all registry reviewer (repeat (now, cmd) k) w
    = (Ok tt, mkWorld st (evals w ++ scripts))
    /\ length scripts = k
    /\ RateLimiter.holds_tokens now
         (RateLimiter.key_of (template_id reviewer) (nth 2 (split 58 3 cmd) []))
         0 st.
Proof.
  intros Hp Hl Hcb Hr Hweb. revert w. induction k as [|k IH]; intros w Hst Hk.
  - exists (limiter w), []. rewrite app_nil_r. by destruct w.
  - destruct (handle_answered registry now reviewer r cmd c w Hp Hl Hcb Hr Hweb)
      as [json Hh].
    destruct (check_consumes now (template_id reviewer)
                (nth 2 (split 58 3 cmd) []) DEFAULT_API_RATE_LIMIT_PER_SECOND
                (Z.of_nat (S k)) (limiter w) Hst) as (st1 & Hc & Hst1); [lia|].
    rewrite Hc in Hh. cbn [snd] in Hh.
    cbn [repeat]. rewrite (handle_each_cons _ _ _ _ _ _ _ Hh).
    replace (Z.of_nat (S k) - 1) with (Z.of_nat k) in Hst1 by lia.
    destruct (IH (mkWorld st1
                    (evals w ++ [js_callback (nth 1 (split 58 3 cmd) []) json]))
                Hst1) as (st & scripts & -> & Hlen & Hfin); [lia|].
    exists st, (js_callback (nth 1 (split 58 3 cmd) []) json :: scripts).
    cbn [evals length]. rewrite <- app_assoc. by rewrite Hlen.
Qed.



End RouterMore.

Section Commands.
Implicit Types s a b : pystr.

Lemma split_no_sep sep m s : char_in sep s = false -> split sep m s = [s].
Proof.
  unfold char_in. revert m. induction s as [|c s IH]; intros m; [done|].
  cbn [existsb split]. intros [Hc Hs]%orb_false_iff.
  destruct m as [|m]; [done|]. rewrite Z.eqb_sym, Hc. by rewrite IH.
Qed.

Lemma split_at_sep sep m a b :
  char_in sep a = false ->
  split sep (S m) (a ++ sep :: b) = a :: split sep m b.
Proof.
  unfold char_in. induction a as [|c a IH]; cbn [existsb app split].
  - intros _. by rewrite Z.eqb_refl.
  - intros [Hc Ha]%orb_false_iff. rewrite Z.eqb_sym, Hc. by rewrite IH.
Qed.

(** X23: the parts of a command. With a callback id and a function name
    without colon, [cmd.split(':', 3)] gives back the callback id, the
    function name and the argument text, which keeps its colons; a command
    without argument text has three parts. *)
Theorem command_split_round_trip callback_id function_name args_json :
  char_in 58 callback_id = false ->
  char_in 58 function_name = false ->
  split 58 3 (u "ankidroidjs:" ++ callback_id ++ 58 :: function_name
                ++ 58 :: args_json)
  = [u "ankidroidjs"; callback_id; function_name; args_json]
  /\ split 58 3 (u "ankidroidjs:" ++ callback_id ++ 58 :: function_name)
     = [u "ankidroidjs"; callback_id; function_name].
Proof.
  intros Hc Hf. rewrite !split_after_prefix.
  rewrite (split_at_sep 58 1 callback_id) by done.
  rewrite (split_at_sep 58 0 function_name) by done.
  rewrite (split_at_sep 58 1 callback_id) by done.
  rewrite (split_no_sep _ _ _ Hf). split; [|done].
  by destruct args_json.
Qed.

End Commands.

Import ApiBridge.




(** The witness of X23: an argument text with a colon. *)
Lemma command_split_witness :
  split 58 3 (u "ankidroidjs:" ++ u "7" ++ 58 :: u "ankiSetCardDue"
                ++ 58 :: u "{days: 3}")
  = [u "ankidroidjs"; u "7"; u "ankiSetCardDue"; u "{days: 3}"]
  /\ split 58 3 (u "ankidroidjs:" ++ u "7" ++ 58 :: u "ankiSetCardDue")
     = [u "ankidroidjs"; u "7"; u "ankiSetCardDue"].
Proof.
  apply (command_split_round_trip (u "7") (u "ankiSetCardDue") (u "{days: 3}"));
    reflexivity.
Defined.


(** * What the router writes *)

Section Ascii.
Import ApiBridge.
Implicit Types s : pystr.

Lemma digits_of_pos_ascii fuel n acc :
  forallb ascii_printable acc = true ->
  forallb ascii_printable (digits_of_pos fuel n acc) = true.
Proof.
  revert n acc. induction fuel as [|fuel IH]; intros n acc Hacc; [done|].
  cbn [digits_of_pos].
  assert (forallb ascii_printable ((48 + n mod 10) :: acc) = true) as H.
  { cbn [forallb]. rewrite Hacc, andb_true_r. unfold ascii_printable.
    pose proof (Z.mod_pos_bound n 10). apply andb_true_iff.
    split; [apply Z.leb_le|apply Z.leb_le]; lia. }
  destruct (n <? 10); [done|by apply IH].
Qed.

Lemma str_of_int_ascii n : forallb ascii_printable (str_of_int n) = true.
Proof.
  unfold str_of_int. destruct (n <? 0).
  - cbn [forallb]. by rewrite digits_of_pos_ascii.
  - by apply digits_of_pos_ascii.
Qed.

Lemma hex_digit_ascii n : ascii_printable (hex_digit (Z.land n 15)) = true.
Proof.
  change 15 with (Z.ones 4). rewrite Z.land_ones by lia.
  pose proof (Z.mod_pos_bound n (2 ^ 4)) as H. unfold hex_digit, ascii_printable.
  destruct (Z.ltb_spec (n mod 2 ^ 4) 10); apply andb_true_iff;
    split; apply Z.leb_le; lia.
Qed.

Lemma u_escape_ascii n : forallb ascii_printable (u_escape n) = true.
Proof.
  unfold u_escape. cbn [forallb List.map]. by rewrite !hex_digit_ascii.
Qed.

Lemma escape_char_ascii c : forallb ascii_printable (escape_char c) = true.
Proof.
  unfold escape_char.
  repeat (match goal with |- context [if ?b then _ else _] =>
            destruct b eqn:? end; try done);
    rewrite ?forallb_app, ?u_escape_ascii; try done.
  cbn [forallb]. unfold ascii_printable. by rewrite andb_true_r.
Qed.

Lemma encode_str_ascii s : forallb ascii_printable (encode_str s) = true.
Proof.
  unfold encode_str. cbn [forallb]. rewrite forallb_app. cbn [forallb andb].
  rewrite andb_true_r. change (ascii_printable 34) with true. cbn [andb].
  induction s as [|c s IH]; [done|]. cbn [List.map List.concat].
  by rewrite forallb_app, escape_char_ascii, IH.
Qed.

Lemma join_dumps_ok {A} (dump_item : A -> result pystr) (Q : pystr -> Prop)
    first l s :
  Q [] -> Q (u ", ") -> (forall a b, Q a -> Q b -> Q (a ++ b)) ->
  Forall (fun x => forall s', dump_item x = Ok s' -> Q s') l ->
  join_dumps dump_item first l = Ok s -> Q s.
Proof.
  intros Hnil Hsep Happ HF. revert first s.
  induction HF as [|x l Hx _ IH]; intros first s; [by intros [= <-]|].
  simpl. destruct (dump_item x) as [sx|] eqn:Ex; simpl; [|done].
  destruct (join_dumps dump_item false l) as [sl|] eqn:El; simpl; [|done].
  intros [= <-]. apply Happ; [by destruct first|].
  apply Happ; [by apply Hx|by apply (IH false)].
Qed.

(** X24: what [json.dumps] writes with [ensure_ascii=True] consists of
    printable ASCII characters only, whatever characters the strings and
    the keys of the value contain. *)
Theorem json_dumps_writes_ascii v s :
  json_dumps v = Ok s -> forallb ascii_printable s = true.
Proof.
  revert s. induction v as [| [] | n | t | items IH | entries IH | t]
    using PyValue_nested_ind; intros s; simpl; try (by intros [= <-]).
  - intros [= <-]. apply str_of_int_ascii.
  - intros [= <-]. apply encode_str_ascii.
  - destruct (join_dumps json_dumps true items) as [sl|] eqn:E; simpl; [|done].
    intros [= <-]. cbn [forallb]. rewrite forallb_app. cbn [forallb andb].
    rewrite andb_true_r. change (ascii_printable 91) with true. cbn [andb].
    revert E. apply (join_dumps_ok _ (fun s => forallb ascii_printable s = true));
      [done|done| |exact IH].
    intros a b Ha Hb. by rewrite forallb_app, Ha, Hb.
  - destruct (join_dumps _ true entries) as [sl|] eqn:E; simpl; [|done].
    intros [= <-]. cbn [forallb]. rewrite forallb_app. cbn [forallb andb].
    rewrite andb_true_r. change (ascii_printable 123) with true. cbn [andb].
    revert E. apply (join_dumps_ok _ (fun s => forallb ascii_printable s = true));
      [done|done|intros a b Ha Hb; by rewrite forallb_app, Ha, Hb|].
    eapply Forall_impl; [exact IH|]. intros [key x] Hx s'. cbn [fst snd] in *.
    destruct (json_dumps x) as [sx|] eqn:Ex; cbn [bind_result]; [|done].
    intros [= <-].
    change (forallb ascii_printable (encode_str key ++ u ": " ++ sx) = true).
    rewrite !forallb_app, encode_str_ascii, (Hx sx eq_refl). done.
Qed.

End Ascii.

Import ApiBridge.

(** The witness of X24: a key and a string outside ASCII. *)
Lemma json_dumps_ascii_witness :
  json_dumps (PyDict [([233], PyList [PyStr [26085; 10; 128512]; PyInt (-5)])])
  = Ok (u "{" ++ [34] ++ u "\u00e9" ++ [34] ++ u ": [" ++ [34]
          ++ u "\u65e5\n\ud83d\ude00" ++ [34] ++ u ", -5]}")
  /\ forallb ascii_printable
       (u "{" ++ [34] ++ u "\u00e9" ++ [34] ++ u ": [" ++ [34]
          ++ u "\u65e5\n\ud83d\ude00" ++ [34] ++ u ", -5]}") = true.
Proof.
  split; [vm_compute; reflexivity|].
  apply (json_dumps_writes_ascii
           (PyDict [([233], PyList [PyStr [26085; 10; 128512]; PyInt (-5)])])).
  vm_compute. reflexivity.
Defined.

(** * The injection of the script *)

Section Replace.
Implicit Types s a b old new : pystr.

Lemma startswith_prefix_enough l r m :
  (length m <= length l)%nat -> startswith (l ++ r) m = startswith l m.
Proof.
  revert l. induction m as [|p m IH]; intros l Hl; [done|].
  destruct l as [|c l]; [simpl in Hl; lia|].
  cbn [app startswith]. rewrite IH; [done|]. simpl in Hl. lia.
Qed.

Lemma replace_from_skip old new w s :
  replace_from old new (length w) (w ++ s) = replace_from old new 0 s.
Proof.
  induction w as [|c w IH]; [by destruct s|]. cbn [length app replace_from].
  exact IH.
Qed.

(** The first occurrence of [old] is replaced, and the search goes on
    after it. *)
Lemma replace_from_first old new a b :
  old <> [] ->
  contains (a ++ removelast old) old = false ->
  replace_from old new 0 (a ++ old ++ b)
  = a ++ new ++ replace_from old new 0 b.
Proof.
  intros Hold. induction a as [|x a IH]; intros Ha.
  - destruct old as [|c old]; [done|]. cbn [app replace_from].
    change (c :: old ++ b) with ((c :: old) ++ b). rewrite startswith_app.
    replace (length (c :: old) - 1)%nat with (length old) by (simpl; lia).
    by rewrite replace_from_skip.
  - cbn [app replace_from].
    assert (startswith (x :: a ++ old ++ b) old = false) as ->.
    { rewrite (app_removelast_last 0 Hold) at 1.
      change (x :: a ++ (removelast old ++ [List.last old 0]) ++ b)
        with ((x :: a) ++ (removelast old ++ [List.last old 0]) ++ b).
      rewrite <- app_assoc, app_assoc.
      rewrite startswith_prefix_enough.
      - cbn [app contains] in Ha. by apply orb_false_iff in Ha as [Ha _].
      - rewrite length_app. cbn [length].
        rewrite (app_removelast_last 0 Hold) at 1.
        rewrite length_app. cbn [length]. lia. }
    rewrite IH; [done|]. cbn [app contains] in Ha.
    by apply orb_false_iff in Ha as [_ Ha].
Qed.

Lemma replace_from_absent old new s :
  contains s old = false -> replace_from old new 0 s = s.
Proof.
  induction s as [|c s IH]; [done|]. cbn [contains replace_from].
  intros [-> Hs]%orb_false_iff. by rewrite IH.
Qed.

End Replace.

Section Injection.
Import ApiBridge.

(** X25: [inject_js_api] puts the script element immediately before the
    first [</head>] of the page, and before every later one: the page is
    otherwise unchanged, and the script is there exactly once when
    [</head>] occurs once. *)
Theorem inject_js_api_before_head (js_api a b : pystr) :
  contains (a ++ u "</head") (u "</head>") = false ->
  inject_js_api (Ok js_api) (a ++ u "</head>" ++ b)
  = Ok (a ++ (u "<script>" ++ js_api ++ u "</script>") ++ u "</head>"
          ++ replace b (u "</head>")
               ((u "<script>" ++ js_api ++ u "</script>") ++ u "</head>"))
  /\ (contains b (u "</head>") = false ->
      inject_js_api (Ok js_api) (a ++ u "</head>" ++ b)
      = Ok (a ++ (u "<script>" ++ js_api ++ u "</script>") ++ u "</head>" ++ b)).
Proof.
  intros Ha.
  assert (inject_js_api (Ok js_api) (a ++ u "</head>" ++ b)
          = Ok (a ++ (u "<script>" ++ js_api ++ u "</script>") ++ u "</head>"
                  ++ replace b (u "</head>")
                       ((u "<script>" ++ js_api ++ u "</script>")
                          ++ u "</head>"))) as E.
  { unfold inject_js_api, bind_result.
    rewrite contains_app_r by apply contains_app_l.
    unfold replace. change (u "</head>") with (60 :: u "/head>") at 1 5.
    cbv iota. change (60 :: u "/head>") with (u "</head>").
    rewrite replace_from_first; [|done|exact Ha].
    by rewrite <- !app_assoc. }
  split; [exact E|]. intros Hb. rewrite E. unfold replace.
  change (u "</head>") with (60 :: u "/head>") at 2.
  cbv iota. change (60 :: u "/head>") with (u "</head>").
  by rewrite replace_from_absent.
Qed.

End Injection.

Import ApiBridge.

(** The witness of X25: a page with one head. *)
Lemma inject_js_api_witness :
  inject_js_api (Ok (u "api()"))
    (u "<html><head><title>t</title></head><body>q</body></html>")
  = Ok (u "<html><head><title>t</title><script>api()</script></head><body>q</body></html>").
Proof.
  apply (proj2 (inject_js_api_before_head (u "api()")
                  (u "<html><head><title>t</title>")
                  (u "<body>q</body></html>") eq_refl)).
  reflexivity.
Defined.

(** * Tags and card actions *)

Section TagProcessing.
Import Actions.
Implicit Types (tag : pystr) (tags : list pystr).

Lemma process_tags_acc (f : list pystr -> pystr -> list pystr) tags acc :
  (forall a t, f a t = a ++ f [] t) ->
  fold_left f tags acc = acc ++ fold_left f tags [].
Proof.
  intros Hf. revert acc. induction tags as [|t tags IH]; intros acc.
  - by rewrite app_nil_r.
  - cbn [fold_left]. rewrite (IH (f acc t)), (IH (f [] t)), Hf.
    by rewrite app_assoc.
Qed.

Lemma process_tags_cons tag tags :
  process_tags (tag :: tags)
  = match replace (strip tag) (u " ") (u "_") with
    | [] => process_tags tags
    | _ :: _ => replace (strip tag) (u " ") (u "_") :: process_tags tags
    end.
Proof.
  unfold process_tags. cbn [fold_left]. rewrite process_tags_acc.
  - by destruct (replace (strip tag) (u " ") (u "_")).
  - intros a t.
    destruct (replace (strip t) (u " ") (u "_")); [by rewrite app_nil_r|done].
Qed.

(** A processed tag is its own processed form. *)
Lemma processed_tag_fixed tag :
  char_in 32 (replace (strip tag) (u " ") (u "_")) = false
  /\ strip (replace (strip tag) (u " ") (u "_"))
     = replace (strip tag) (u " ") (u "_").
Proof.
  split; [apply underscored_no_space|]. apply strip_id.
  - intros c t. apply underscored_head. intros ? ?. apply strip_head.
  - intros t c. apply underscored_last. intros ? ?. apply strip_last.
Qed.

Lemma process_tags_clean tags :
  Forall (fun t => t <> [] /\ char_in 32 t = false /\ strip t = t)
         (process_tags tags).
Proof.
  induction tags as [|tag tags IH]; [constructor|].
  rewrite process_tags_cons.
  destruct (replace (strip tag) (u " ") (u "_")) as [|c t] eqn:E; [done|].
  constructor; [|done]. rewrite <- E. split; [by rewrite E|].
  apply processed_tag_fixed.
Qed.

Lemma process_tags_fixed tags :
  Forall (fun t => t <> [] /\ char_in 32 t = false /\ strip t = t) tags ->
  process_tags tags = tags.
Proof.
  induction 1 as [|t tags (Hne & Hsp & Hst) _ IH]; [done|].
  rewrite process_tags_cons, Hst, (underscored_id _ Hsp), IH.
  by destruct t.
Qed.

(** X26: the tags [anki_set_note_tags] stores are not empty, contain no
    space and have no whitespace at their ends, and are at most as many as
    the tags given, whatever tags the note had; setting the stored tags
    again stores the same list. *)
Theorem set_note_tags_stores_clean_tags tags old stored :
  snd (anki_set_note_tags tags (Some old)) = Some stored ->
  Forall (fun t => t <> [] /\ char_in 32 t = false /\ strip t = t) stored
  /\ (length stored <= length tags)%nat
  /\ anki_set_note_tags stored (Some stored) = (true, Some stored).
Proof.
  cbn [anki_set_note_tags snd]. intros [= <-].
  split; [apply process_tags_clean|]. split.
  - induction tags as [|tag tags IH]; [done|]. rewrite process_tags_cons.
    destruct (replace (strip tag) (u " ") (u "_")); cbn [length]; lia.
  - unfold anki_set_note_tags.
    by rewrite (process_tags_fixed _ (process_tags_clean tags)).
Qed.

End TagProcessing.

Import Actions.

(** The witness of X26: three tags, one of them blank. *)
Lemma set_note_tags_witness :
  snd (anki_set_note_tags [u "vocabulary"; u " chapter 1 "; u "   "]
         (Some [u "old"]))
  = Some [u "vocabulary"; u "chapter_1"]
  /\ anki_set_note_tags [u "vocabulary"; u "chapter_1"]
       (Some [u "vocabulary"; u "chapter_1"])
     = (true, Some [u "vocabulary"; u "chapter_1"]).
Proof.
  split; [reflexivity|].
  apply (set_note_tags_stores_clean_tags
           [u "vocabulary"; u " chapter 1 "; u "   "] [u "old"]
           [u "vocabulary"; u "chapter_1"]).
  reflexivity.
Defined.

Section ActionsProofs.
Import ApiBridge Actions.
Variable int_of_str : pystr -> option Z.
Variable str_lower : PyValue -> pystr.

Lemma validate_integer_ok value min_val max_val n :
  validate_integer int_of_str value min_val max_val = Ok n
  <-> py_int int_of_str value = Some n /\ min_val <= n <= max_val.
Proof.
  unfold validate_integer. destruct (py_int int_of_str value) as [m|].
  - destruct (Z.leb_spec min_val m), (Z.leb_spec m max_val); cbn [andb];
      split; try done; try (intros [[= ->] ?]; lia).
    + intros [= ->]. split; [done|lia].
    + by intros [[= ->] _].
  - split; [done|]. by intros [? _].
Qed.

(** What [validate_integer] returns, and what it raises. *)
Lemma validate_integer_range value min_val max_val :
  match validate_integer int_of_str value min_val max_val with
  | Ok n => py_int int_of_str value = Some n /\ min_val <= n <= max_val
  | Raise e =>
      match py_int int_of_str value with
      | None => exc_type e = "TypeError"%string
      | Some n => exc_type e = "ValueError"%string
                  /\ (n < min_val \/ max_val < n)
      end
  end.
Proof.
  unfold validate_integer. destruct (py_int int_of_str value) as [m|]; [|done].
  destruct (Z.leb_spec min_val m), (Z.leb_spec m max_val); cbn [andb];
    (split; [done|lia]).
Qed.

Lemma flag_of_name_range name :
  0 <= default 0 (FLAG_COLOR_MAP !! name) <= 7.
Proof.
  destruct (FLAG_COLOR_MAP !! name) as [v|] eqn:E; cbn [default]; [|lia].
  unfold id.
  unfold FLAG_COLOR_MAP in E. apply elem_of_list_to_map_2 in E.
  repeat (apply elem_of_cons in E as [[= _ ->]|E]; [lia|]).
  by apply elem_of_nil in E.
Qed.



End ActionsProofs.

Import ApiBridge Actions.

